(** * password_policy.stats: a shallow embedding of [PasswordStats]

    The Python class [PasswordStats] (src/password_policy/stats.py) computes
    statistics of one password: character classes, alphabet size, entropy and
    two weakness detectors.  Every method is embedded as a function of the
    password; the [cached_property] decorator only memoises, so a property is
    modelled by the function it caches. *)

From Stdlib Require Import ZArith NArith List Ascii String Lia Bool.
From Stdlib Require Import Floats.SpecFloat.
From stdpp Require Import gmap strings list fin_maps.

Local Open Scope Z_scope.

(** ** Python values

    A [unicode] object is a sequence of code points.  Indices and lengths are
    Python integers, hence [Z]. *)

Definition codepoint := N.
Definition unicode := list codepoint.

(** [u "..."] is the unicode literal with the given ASCII characters. *)
Fixpoint u (s : string) : unicode :=
  match s with
  | EmptyString => []
  | String a s' => N_of_ascii a :: u s'
  end.

Definition len {A} (l : list A) : Z := Z.of_nat (length l).

(** [s[i:]] for [0 <= i]. *)
Definition slice_from {A} (s : list A) (i : Z) : list A := drop (Z.to_nat i) s.

(** Exceptions the embedded code can raise. *)
Inductive exn :=
| IndexError
| ValueError
| ZeroDivisionError.

(** Outcome of running a piece of Python code: a value, an exception, or the
    loop budget of the model ran out. *)
Inductive run (A : Type) :=
| Done (a : A)
| Raised (e : exn)
| OutOfFuel.
Arguments Done {A} a.
Arguments Raised {A} e.
Arguments OutOfFuel {A}.

Definition bind {A B} (m : run A) (k : A -> run B) : run B :=
  match m with
  | Done a => k a
  | Raised e => Raised e
  | OutOfFuel => OutOfFuel
  end.

Notation "'let*' x ':=' m 'in' k" := (bind m (fun x => k))
  (at level 10, x name, m at level 100, k at level 200).

(** [s[0]]. *)
Definition item0 {A} (s : list A) : run A :=
  match s with
  | [] => Raised IndexError
  | a :: _ => Done a
  end.

(** ** The sequence table *)

Module Sequences.

Definition alphabet_row : unicode := u "abcdefghijklmnopqrstuvwxyz".
Definition keyboard_row : unicode := u "qwertyuiopasdfghjklzxcvbnm".
Definition special_row : unicode := u "~!@#$%^&*()_+-=".
Definition numbers_row : unicode := u "01234567890".

(** The first binding of [_sequences]: four adjacent string literals. *)
Definition _sequences0 : unicode :=
  alphabet_row ++ keyboard_row ++ special_row ++ numbers_row.

(** [_sequences = _sequences + _sequences[::-1]]. *)
Definition _sequences : unicode := _sequences0 ++ rev _sequences0.

End Sequences.
Import Sequences.

(** ** The sequence detector *)

(** [s.find(c, start)] for a one-character [c]: the lowest index [>= start]
    holding [c], or [-1].  A negative [start] counts from the end. *)
Fixpoint index_from (s : unicode) (c : codepoint) (k : Z) : Z :=
  match s with
  | [] => -1
  | a :: s' => if N.eqb a c then k else index_from s' c (k + 1)
  end.

Definition find (s : unicode) (c : codepoint) (start : Z) : Z :=
  let start := if start <? 0 then Z.max 0 (start + len s) else start in
  index_from (slice_from s start) c start.

(** The [for a, b in izip(password, table)] loop: the longest common prefix,
    accumulated in [common_here]. *)
Fixpoint common_prefix (password table : unicode) : unicode :=
  match password, table with
  | a :: password', b :: table' =>
      if negb (N.eqb a b) then [] else a :: common_prefix password' table'
  | _, _ => []
  end.

(** The inner [while True] loop over the occurrences of [password[0]] in the
    table, from the state [(j, common_length)]. *)
Fixpoint occurrences_loop (fuel : nat) (password : unicode) (j common_length : Z)
  : run Z :=
  match fuel with
  | O => OutOfFuel
  | S fuel' =>
      let* c := item0 password in
      let j := find _sequences c (j + 1) in
      if j =? -1 then Done common_length
      else
        let common_here := common_prefix password (slice_from _sequences j) in
        occurrences_loop fuel' password j (Z.max common_length (len common_here))
  end.

(** One pass of the inner loop visits one occurrence, so the table length plus
    one (for the failing [find]) bounds it. *)
Definition occurrences_fuel : nat := S (length _sequences).

Definition longest_common (password : unicode) : run Z :=
  occurrences_loop occurrences_fuel password (-1) 1.

(** The outer [while i < len(self.password)] loop from the state
    [(i, sequences_length)]; [fuel] counts the iterations allowed. *)
Fixpoint scan_loop (fuel : nat) (password : unicode) (i sequences_length : Z)
  : run Z :=
  if i <? len password then
    match fuel with
    | O => OutOfFuel
    | S fuel' =>
        let* common_length := longest_common (slice_from password i) in
        let sequences_length :=
          if common_length >? 1 then sequences_length + common_length
          else sequences_length in
        scan_loop fuel' password (i + common_length) sequences_length
    end
  else Done sequences_length.

Definition sequences_length (password : unicode) : run Z :=
  scan_loop (length password) password 0 0.

(** ** The classifier and the counters

    [unicodedata.category] belongs to the Unicode database, outside this
    module; it is a parameter.  It returns a two-letter general category. *)

Record category_code := { major : ascii; minor : ascii }.

Definition code (g : category_code) : string :=
  String (major g) (String (minor g) EmptyString).

(** [collections.Counter]: a dictionary whose missing keys read as [0]. *)
Definition getitem (c : gmap string Z) (k : string) : Z := default 0 (c !! k).

(** [Counter(iterable)] counts the elements one by one. *)
Definition Counter (items : list string) : gmap string Z :=
  fold_left (fun c x => <[x := getitem c x + 1]> c) items ∅.

(** [cat[0]] as a string; the keys it is applied to are two-letter codes. *)
Definition first_letter (cat : string) : string :=
  match cat with
  | String a _ => String a EmptyString
  | EmptyString => EmptyString
  end.

(** The builtin [sum]. *)
Definition sum (l : list Z) : Z := fold_left Z.add l 0.

(** [int(b)]. *)
Definition int (b : bool) : Z := if b then 1 else 0.

Section Classifier.

Variable category : codepoint -> category_code.

Definition char_categories_detailed (password : unicode) : gmap string Z :=
  Counter (map (fun c => code (category c)) password).

(** [for cat, n in detailed.items(): c[cat[0]] += n]. *)
Definition char_categories (password : unicode) : gmap string Z :=
  map_fold (fun cat n c =>
              <[first_letter cat := getitem c (first_letter cat) + n]> c)
           ∅ (char_categories_detailed password).

Definition length_ (password : unicode) : Z := len password.

Definition letters (password : unicode) : Z :=
  getitem (char_categories password) "L".

Definition letters_uppercase (password : unicode) : Z :=
  getitem (char_categories_detailed password) "Lu".

Definition letters_lowercase (password : unicode) : Z :=
  getitem (char_categories_detailed password) "Ll".

Definition numbers (password : unicode) : Z :=
  getitem (char_categories password) "N".

Definition count (password : unicode) (categories : list string) : Z :=
  sum (map (fun '(cat, n) => int (bool_decide (cat ∈ categories)) * n)
           (map_to_list (char_categories password))).

Definition count_except (password : unicode) (categories : list string) : Z :=
  sum (map (fun '(cat, n) => int (negb (bool_decide (cat ∈ categories))) * n)
           (map_to_list (char_categories password))).

Definition special_characters (password : unicode) : Z :=
  count_except password ["L"%string; "N"%string].

End Classifier.

(** ** Alphabet, combinations and entropy *)

Definition alphabet (password : unicode) : gset codepoint :=
  list_to_set password.

Definition alphabet_cardinality (password : unicode) : Z :=
  Z.of_nat (size (alphabet password)).

(** [alphabet_cardinality ** length] on Python integers: exact, and the
    exponent is never negative. *)
Definition combinations (password : unicode) : Z :=
  alphabet_cardinality password ^ len password.

(** Python floats are IEEE 754 binary64 values. *)
Definition float := spec_float.
Definition prec : Z := 53.
Definition emax : Z := 1024.

(** Conversion of a Python [int] (a C [long]) to a float. *)
Definition float_of_int (n : Z) : float := binary_normalize prec emax n 0 false.

Definition float_mul (x y : float) : float := SFmul prec emax x y.

(** Float division raises on a zero divisor. *)
Definition float_div (x y : float) : run float :=
  match y with
  | S754_zero _ => Raised ZeroDivisionError
  | _ => Done (SFdiv prec emax x y)
  end.

(** The C macros [Py_IS_NAN], [Py_IS_INFINITY] and [Py_IS_FINITE]. *)
Definition Py_IS_NAN (x : float) : bool :=
  match x with S754_nan => true | _ => false end.

Definition Py_IS_INFINITY (x : float) : bool :=
  match x with S754_infinity _ => true | _ => false end.

Definition Py_IS_FINITE (x : float) : bool :=
  match x with S754_zero _ | S754_finite _ _ _ => true | _ => false end.

Section Entropy.

(** The C library's [log] on positive finite doubles. *)
Variable libm_log : float -> float.

(** The C function [m_log] of the math module: the library's [log] on a
    positive finite double, minus infinity at zero, NaN on a negative
    number; NaN and plus infinity are returned as they are. *)
Definition m_log (x : float) : float :=
  match x with
  | S754_nan => x
  | S754_infinity false => x
  | S754_infinity true => S754_nan
  | S754_zero _ => S754_infinity true
  | S754_finite true _ _ => S754_nan
  | S754_finite false _ _ => libm_log x
  end.

(** The wrapper [math_1] of the math module, as [math.log] calls it (no
    overflow allowed): a NaN result of an argument that is no NaN, or an
    infinite result of a finite argument, is a "math domain error".  Its
    last test, on [errno], concerns finite results only, and [m_log] sets
    [errno] only with a result that is not finite. *)
Definition math_1 (func : float -> float) (x : float) : run float :=
  let r := func x in
  if Py_IS_NAN r && negb (Py_IS_NAN x) then Raised ValueError
  else if Py_IS_INFINITY r && Py_IS_FINITE x then Raised ValueError
  else Done r.

(** [math.log(x, base)]: the quotient of the two logarithms. *)
Definition log (x base : Z) : run float :=
  let* num := math_1 m_log (float_of_int x) in
  let* den := math_1 m_log (float_of_int base) in
  float_div num den.

Definition entropy_bits (password : unicode) : run float :=
  let length := len password in
  let* bits := log (alphabet_cardinality password) 2 in
  Done (float_mul (float_of_int length) bits).

End Entropy.

(** [strength] has a docstring and no statement: the call returns [None].
    The result type is [option float], [None] being Python's [None]. *)
Definition strength (password : unicode) : run (option float) := Done None.

(** ** The repeated-pattern detector

    [_repeated_patterns_rex] is the compiled pattern [((.+?)\2+)] with the
    flags UNICODE, DOTALL and IGNORECASE.  The matcher below is the
    backtracking search of the [re] module specialised to this pattern; the
    character lowering of the Unicode database is a parameter. *)

Section RepeatedPatterns.

Variable tolower : codepoint -> codepoint.

(** The back-reference [\2] under IGNORECASE: [text] starts with [group],
    character by character after lowering. *)
Fixpoint groupref_ignore (group text : unicode) : bool :=
  match group, text with
  | [] , _ => true
  | _ :: _, [] => false
  | a :: group', b :: text' =>
      N.eqb (tolower a) (tolower b) && groupref_ignore group' text'
  end.

(** Greedy repetition of the back-reference: the number of characters
    taken by as many copies of [group] as [text] starts with. *)
Fixpoint max_repeat_groupref (fuel : nat) (group text : unicode) : nat :=
  match fuel with
  | O => O
  | S fuel' =>
      if groupref_ignore group text
      then (length group
            + max_repeat_groupref fuel' group (drop (length group) text))%nat
      else O
  end.

(** The lazy [.+?]: group 2 takes [k] characters, then one more each time
    the rest of the pattern fails.  The result is the pair of the lengths
    of group 1 and group 2. *)
Fixpoint min_repeat_any (candidates k : nat) (text : unicode)
  : option (nat * nat) :=
  match candidates with
  | O => None
  | S candidates' =>
      let group := take k text in
      let rest := drop k text in
      let repeats := max_repeat_groupref (length rest) group rest in
      if (0 <? repeats)%nat then Some ((k + repeats)%nat, k)
      else min_repeat_any candidates' (S k) text
  end.

(** A match of the whole pattern anchored at the start of [text]. *)
Definition sre_match (text : unicode) : option (nat * nat) :=
  min_repeat_any (length text) 1%nat text.

(** [rex.findall(text)]: the groups of the successive non-overlapping
    matches, searching from the end of the previous one. *)
Fixpoint findall (fuel : nat) (text : unicode) : list (unicode * unicode) :=
  match fuel with
  | O => []
  | S fuel' =>
      match text with
      | [] => []
      | _ :: text' =>
          match sre_match text with
          | Some (n, k) => (take n text, take k text) :: findall fuel' (drop n text)
          | None => findall fuel' text'
          end
      end
  end.

Definition repeated_patterns_length (password : unicode) : Z :=
  fold_left (fun length '(substring, pattern) => length + len substring)
            (findall (length password) password) 0.

End RepeatedPatterns.

(** The lowering of the Unicode database on ASCII: [A]-[Z] to [a]-[z]. *)
Definition ascii_tolower (c : codepoint) : codepoint :=
  if ((65 <=? c) && (c <=? 90))%N then (c + 32)%N else c.

(** [unicode.lower()] on ASCII text. *)
Definition lower (s : unicode) : unicode := map ascii_tolower s.

(** An uppercase ASCII letter. *)
Definition ascii_upper (c : codepoint) : Prop := (65 <= c <= 90)%N.

(** ** The sequence table as the specification words it

    Lowercase letters, the keyboard row, the shifted top-row symbols and the
    digits 0 to 9, each digit once, followed by the reverse of the whole. *)
Definition SequenceTable_spec : unicode :=
  let rows := u "abcdefghijklmnopqrstuvwxyz" ++ u "qwertyuiopasdfghjklzxcvbnm"
              ++ u "~!@#$%^&*()_+-=" ++ u "0123456789" in
  rows ++ rev rows.

(** The specification's repeated pattern: the first [n] characters of [text]
    are [q >= 2] copies of its first [k >= 1] characters, up to the lowering
    of case, and one more copy does not follow. *)
Definition is_repeat (tolower : codepoint -> codepoint) (text : unicode)
           (n k : nat) : Prop :=
  (1 <= k)%nat
  /\ exists q : nat,
      (2 <= q)%nat /\ n = (q * k)%nat /\ (n <= length text)%nat
      /\ map tolower (take n text)
         = map tolower (concat (replicate q (take k text)))
      /\ groupref_ignore tolower (take k text) (drop n text) = false.

(** Two lowerings agree on the characters of a text. *)
Definition agree (f g : codepoint -> codepoint) (s : unicode) : Prop :=
  Forall (fun c => f c = g c) s.

(** The largest Python [int], which bounds every [len]. *)
Definition sys_maxint : Z := 2 ^ 63 - 1.

(** An excerpt of the C library's [log], enough to run the model on
    alphabets of one or two symbols: [log(1.0)] is [+0.0] and [log(2.0)] is
    the double nearest to ln 2. *)
Definition ln2 : float := S754_finite false 6243314768165359 (-53).

Definition libm_log_excerpt (x : float) : float :=
  if SFeqb x (float_of_int 1) then S754_zero false
  else if SFeqb x (float_of_int 2) then ln2
  else S754_nan.

(** An excerpt of [unicodedata.category] on ASCII letters and digits, to run
    the classifier. *)
Definition ascii_category (c : codepoint) : category_code :=
  if ((65 <=? c) && (c <=? 90))%N then {| major := "L"; minor := "u" |}
  else if ((97 <=? c) && (c <=? 122))%N then {| major := "L"; minor := "l" |}
  else if ((48 <=? c) && (c <=? 57))%N then {| major := "N"; minor := "d" |}
  else {| major := "P"; minor := "o" |}.

(** The sum of the counts held by a counter ([sum(c.values())]). *)
Definition values_total (c : gmap string Z) : Z :=
  sum (map snd (map_to_list c)).

(** The weighted sum of a counter: each count times the weight of its
    key. *)
Definition weighted_total (w : string -> Z) (c : gmap string Z) : Z :=
  sum (map (fun '(k, n) => w k * n) (map_to_list c)).

(** The number of characters of a password that pass a test. *)
Definition how_many (test : codepoint -> bool) (password : unicode) : Z :=
  len (List.filter test password).

(** A password holds a repetition: somewhere a non-empty block is followed
    at once by a copy of itself, up to the lowering of case. *)
Definition has_repeat (tolower : codepoint -> codepoint) (password : unicode)
  : Prop :=
  exists before block copy after : unicode,
    password = before ++ block ++ copy ++ after
    /\ block <> []
    /\ map tolower copy = map tolower block.

(** ** The memoising decorator

    [cached_property(f)] is a property whose getter looks for the attribute
    ['__' + f.__name__] on the object, computes and stores it when it is
    missing, and returns the stored attribute.  An object is its attribute
    dictionary; the decorated function may itself store attributes. *)
Definition cached_property {V : Type} (f__name__ : string)
           (f : gmap string V -> gmap string V * V)
           (self : gmap string V) : gmap string V * V :=
  let name := ("__" ++ f__name__)%string in
  match self !! name with
  | None => let '(self, v) := f self in (<[name := v]> self, v)
  | Some v => (self, v)
  end.

(** The first [k] characters of [text] are followed at once by a copy of
    themselves, up to the lowering of case. *)
Definition copy_follows (tolower : codepoint -> codepoint) (text : unicode)
           (k : nat) : Prop :=
  (k + k <= length text)%nat
  /\ map tolower (take k (drop k text)) = map tolower (take k text).

(** The match the specification describes at the start of [text]: the
    shortest unit that a copy of itself follows, taken with all the copies
    that follow. *)
Definition leftmost_match (tolower : codepoint -> codepoint) (text : unicode)
           (n k : nat) : Prop :=
  is_repeat tolower text n k
  /\ forall k', (1 <= k' < k)%nat -> ~ copy_follows tolower text k'.

(** ** Sanity checks of the embedding *)

Example sequences_length_junction : sequences_length (u "yzqw") = Done 4.
Proof. vm_compute. reflexivity. Qed.

Example repeated_patterns_length_aabaab :
  repeated_patterns_length ascii_tolower (u "aabaab") = 4.
Proof. vm_compute. reflexivity. Qed.

Example repeated_patterns_length_ignorecase :
  repeated_patterns_length ascii_tolower (u "aAbB-xyXY") = 8.
Proof. vm_compute. reflexivity. Qed.

Example combinations_abca : combinations (u "abca") = 81.
Proof. vm_compute. reflexivity. Qed.

Example counters_Ab1 :
  letters ascii_category (u "Ab1!x") = 3
  /\ letters_uppercase ascii_category (u "Ab1!x") = 1
  /\ numbers ascii_category (u "Ab1!x") = 1
  /\ special_characters ascii_category (u "Ab1!x") = 1
  /\ count ascii_category (u "Ab1!x") ["L"; "N"]%string = 4.
Proof. repeat split; vm_compute; reflexivity. Qed.

Example entropy_bits_ab :
  entropy_bits libm_log_excerpt (u "ab") = Done (float_of_int 2).
Proof. vm_compute. reflexivity. Qed.

Example entropy_bits_nan_log :
  entropy_bits (fun _ => S754_nan) (u "abc") = Raised ValueError.
Proof. vm_compute. reflexivity. Qed.

Example repeated_patterns_length_xaaaa :
  repeated_patterns_length ascii_tolower (u "xaaaa") = 4.
Proof. vm_compute. reflexivity. Qed.

(** ** Properties of the sequence detector *)

Section SequenceDetector.

Local Opaque _sequences.

Lemma len_nonneg {A} (l : list A) : 0 <= len l.
Proof. unfold len. lia. Qed.

Lemma len_cons {A} (a : A) (l : list A) : len (a :: l) = len l + 1.
Proof. unfold len. simpl. lia. Qed.

Lemma len_slice_from {A} (s : list A) (i : Z) :
  0 <= i <= len s -> len (slice_from s i) = len s - i.
Proof.
  unfold len, slice_from. intros Hi. rewrite length_drop. lia.
Qed.

Lemma index_from_range (s : unicode) (c : codepoint) (k : Z) :
  index_from s c k = -1 \/ k <= index_from s c k < k + len s.
Proof.
  revert k. induction s as [|a s IH]; intros k; simpl.
  - now left.
  - rewrite len_cons. destruct (N.eqb a c).
    + right. pose proof (len_nonneg s). lia.
    + destruct (IH (k + 1)) as [H|H]; [now left|right; lia].
Qed.

Lemma find_range (s : unicode) (c : codepoint) (start : Z) :
  0 <= start ->
  find s c start = -1 \/ start <= find s c start < len s.
Proof.
  intros Hs. unfold find.
  destruct (Z.ltb_spec start 0) as [?|_]; [lia|].
  destruct (Z.le_gt_cases start (len s)) as [Hle|Hgt].
  - pose proof (index_from_range (slice_from s start) c start) as H.
    rewrite len_slice_from in H by lia. destruct H; [now left|right; lia].
  - left. unfold slice_from. rewrite drop_ge; [reflexivity|].
    unfold len in Hgt. lia.
Qed.

Lemma common_prefix_len (password table : unicode) :
  len (common_prefix password table) <= len password.
Proof.
  revert table. induction password as [|a p IH]; intros table.
  - simpl. unfold len. simpl. lia.
  - pose proof (len_nonneg p) as Hp. rewrite len_cons.
    destruct table as [|b t]; simpl.
    + unfold len at 1. simpl. lia.
    + destruct (negb (N.eqb a b)).
      * unfold len at 1. simpl. lia.
      * rewrite len_cons. specialize (IH t). lia.
Qed.

(** The inner loop ends within its budget, and its result lies between the
    initial [common_length] and the length of the slice. *)
Lemma occurrences_loop_done (fuel : nat) (c : codepoint) (rest : unicode)
      (j common_length : Z) :
  -1 <= j ->
  (Z.to_nat (len _sequences - (j + 1)) < fuel)%nat ->
  1 <= common_length <= len (c :: rest) ->
  exists r, occurrences_loop fuel (c :: rest) j common_length = Done r
            /\ common_length <= r <= len (c :: rest).
Proof.
  revert j common_length.
  induction fuel as [|fuel IH]; intros j cl Hj Hfuel Hcl; [lia|].
  cbn [occurrences_loop item0 bind].
  destruct (find_range _sequences c (j + 1)) as [Hf|Hf]; [lia| |].
  - rewrite Hf. cbn. exists cl. split; [reflexivity|lia].
  - destruct (Z.eqb_spec (find _sequences c (j + 1)) (-1)) as [E|_]; [lia|].
    set (j' := find _sequences c (j + 1)) in *.
    pose proof (common_prefix_len (c :: rest) (slice_from _sequences j')) as Hp.
    destruct (IH j' (Z.max cl (len (common_prefix (c :: rest)
                                    (slice_from _sequences j')))))
      as (r & Hr & Hb); [lia|lia|lia|].
    exists r. split; [exact Hr|lia].
Qed.

Lemma longest_common_done (c : codepoint) (rest : unicode) :
  exists r, longest_common (c :: rest) = Done r /\ 1 <= r <= len (c :: rest).
Proof.
  unfold longest_common, occurrences_fuel.
  apply occurrences_loop_done.
  - lia.
  - unfold len. lia.
  - rewrite len_cons. pose proof (len_nonneg rest). lia.
Qed.

Lemma slice_from_cons (password : unicode) (i : Z) :
  0 <= i < len password ->
  exists c rest, slice_from password i = c :: rest.
Proof.
  intros Hi. pose proof (len_slice_from password i ltac:(lia)) as Hl.
  destruct (slice_from password i) as [|c rest]; [|eauto].
  unfold len in Hl at 1. simpl in Hl. lia.
Qed.

(** Invariant of the outer loop: the cursor stays inside the password and
    the total grows by at most what the cursor advances. *)
Lemma scan_loop_done (fuel : nat) (password : unicode) (i total : Z) :
  0 <= i <= len password ->
  (Z.to_nat (len password - i) <= fuel)%nat ->
  exists n, scan_loop fuel password i total = Done n
            /\ total <= n <= total + (len password - i).
Proof.
  revert i total. induction fuel as [|fuel IH]; intros i total Hi Hfuel.
  - simpl. destruct (Z.ltb_spec i (len password)); [lia|].
    exists total. split; [reflexivity|lia].
  - cbn [scan_loop]. destruct (Z.ltb_spec i (len password)) as [Hlt|Hge].
    + destruct (slice_from_cons password i ltac:(lia)) as (c & rest & Hs).
      pose proof (len_slice_from password i ltac:(lia)) as Hl.
      rewrite Hs in *.
      destruct (longest_common_done c rest) as (cl & Hcl & Hb).
      rewrite Hcl. cbn [bind].
      destruct (IH (i + cl)
                   (if cl >? 1 then total + cl else total))
        as (n & Hn & Hbn); [lia|lia|].
      exists n. split; [exact Hn|].
      destruct (Z.gtb_spec cl 1); lia.
    + exists total. split; [reflexivity|lia].
Qed.

End SequenceDetector.

(** ** The sequence detector: results *)

(** C6: the detector returns 6 for the alphabet run "abcdef", 6 for the
    keyboard run "qwerty", 6 for the reverse alphabet run "zyxwvu", 0 for
    "a1b2" and 0 for the empty password. *)
Theorem sequences_length_examples :
  sequences_length (u "abcdef") = Done 6
  /\ sequences_length (u "qwerty") = Done 6
  /\ sequences_length (u "zyxwvu") = Done 6
  /\ sequences_length (u "a1b2") = Done 0
  /\ sequences_length (u "") = Done 0.
Proof. repeat split; vm_compute; reflexivity. Qed.

(** C8: the scan terminates for every password.  At every cursor position
    inside a password (after [before], in front of [c :: rest]) the inner
    loop ends and yields a [common_length] of at least 1 and at most the
    length of the remaining slice; and [len password] iterations of the outer
    loop are enough for it to return. *)
Theorem sequences_scan_terminates (before : unicode) (c : codepoint)
        (rest password : unicode) :
  (exists common_length,
      longest_common (slice_from (before ++ c :: rest) (len before))
      = Done common_length
      /\ 1 <= common_length <= len (c :: rest))
  /\ exists n, scan_loop (length password) password 0 0 = Done n.
Proof.
  split.
  - unfold slice_from, len. rewrite Nat2Z.id, drop_app_length.
    apply longest_common_done.
  - destruct (scan_loop_done (length password) password 0 0) as (n & Hn & _).
    + pose proof (len_nonneg password). lia.
    + unfold len. lia.
    + eauto.
Qed.

(** C9: for every password the detector returns a total between 0 and the
    number of code points of the password. *)
Theorem sequences_length_bounds (password : unicode) :
  exists n, sequences_length password = Done n /\ 0 <= n <= len password.
Proof.
  unfold sequences_length.
  destruct (scan_loop_done (length password) password 0 0) as (n & Hn & Hb).
  - pose proof (len_nonneg password). lia.
  - unfold len. lia.
  - exists n. split; [exact Hn|lia].
Qed.

(** ** Case sensitivity of the sequence detector *)

Section CaseSensitive.

Local Opaque _sequences.

(** No uppercase ASCII letter occurs in the table. *)
Lemma upper_not_in_table (c : codepoint) :
  ascii_upper c -> find _sequences c 0 = -1.
Proof.
  intros [Hlo Hhi].
  assert (Hall : forallb (fun c => find _sequences c 0 =? -1)
                         (map N.of_nat (seq 65 26)) = true)
    by (vm_compute; reflexivity).
  rewrite forallb_forall in Hall.
  apply Z.eqb_eq, Hall, in_map_iff.
  exists (N.to_nat c). split; [lia|].
  apply in_seq. lia.
Qed.

(** A character absent from the table is a run of length 1. *)
Lemma longest_common_absent (c : codepoint) (rest : unicode) :
  find _sequences c 0 = -1 -> longest_common (c :: rest) = Done 1.
Proof.
  intros Hf. unfold longest_common, occurrences_fuel.
  cbn [occurrences_loop item0 bind].
  change (-1 + 1) with 0. rewrite Hf. reflexivity.
Qed.

Lemma scan_loop_upper (fuel : nat) (password : unicode) (i total : Z) :
  Forall ascii_upper password ->
  0 <= i <= len password ->
  (Z.to_nat (len password - i) <= fuel)%nat ->
  scan_loop fuel password i total = Done total.
Proof.
  intros Hup. revert i total.
  induction fuel as [|fuel IH]; intros i total Hi Hfuel.
  - simpl. destruct (Z.ltb_spec i (len password)); [lia|reflexivity].
  - cbn [scan_loop]. destruct (Z.ltb_spec i (len password)) as [Hlt|Hge];
      [|reflexivity].
    destruct (slice_from_cons password i ltac:(lia)) as (c & rest & Hs).
    assert (Hc : ascii_upper c).
    { assert (Hd : Forall ascii_upper (slice_from password i))
        by (apply Forall_drop, Hup).
      rewrite Hs in Hd. now inversion Hd. }
    rewrite Hs, (longest_common_absent c rest (upper_not_in_table c Hc)).
    cbn [bind]. change (1 >? 1) with false. cbv iota.
    apply IH; lia.
Qed.

End CaseSensitive.

(** C2, as stated, fails: the uppercase run "ABCDEF" scores 0 although its
    lowercase form "abcdef" scores 6. *)
Lemma sequences_length_not_case_insensitive :
  lower (u "ABCDEF") = u "abcdef"
  /\ sequences_length (u "ABCDEF") <> sequences_length (lower (u "ABCDEF")).
Proof. split; [reflexivity|]. vm_compute. discriminate. Qed.

(** C2, amended: the detector is case-sensitive.  Characters are compared
    with the all-lowercase table as they are, so a password made only of
    uppercase ASCII letters has no sequence at all. *)
Theorem sequences_length_case_sensitive (password : unicode) :
  Forall ascii_upper password -> sequences_length password = Done 0.
Proof.
  intros Hup. unfold sequences_length.
  apply scan_loop_upper; [exact Hup| |].
  - pose proof (len_nonneg password). lia.
  - unfold len. lia.
Qed.

Lemma sequences_length_case_sensitive_witness :
  Forall ascii_upper (u "ABCDEF") /\ sequences_length (u "ABCDEF") = Done 0.
Proof.
  assert (H : Forall ascii_upper (u "ABCDEF"))
    by (repeat constructor; unfold ascii_upper; simpl; lia).
  split; [exact H|].
  apply (sequences_length_case_sensitive (u "ABCDEF")). exact H.
Defined.

(** ** The sequence table: results *)

(** C4, as stated, fails: with each digit exactly once the table would have
    154 characters; the table of the code differs from it. *)
Lemma sequences_table_not_spec : _sequences <> SequenceTable_spec.
Proof.
  intros H. apply (f_equal (@length codepoint)) in H.
  vm_compute in H. discriminate.
Qed.

(** C4, amended: the table is the concatenation of the lowercase letters,
    the keyboard row, the top-row symbols and the eleven-character digit run
    "01234567890" (the digit 0 at both ends, every other digit once),
    followed by the character-wise reverse of that concatenation: 156
    characters. *)
Theorem sequences_table :
  _sequences
  = (let rows := u "abcdefghijklmnopqrstuvwxyz" ++ u "qwertyuiopasdfghjklzxcvbnm"
                 ++ u "~!@#$%^&*()_+-=" ++ u "01234567890" in
     rows ++ rev rows)
  /\ _sequences
     = u ("abcdefghijklmnopqrstuvwxyzqwertyuiopasdfghjklzxcvbnm~!@#$%^&*()_+-="
          ++ "01234567890" ++ "09876543210"
          ++ "=-+_)(*&^%$#@!~mnbvcxzlkjhgfdsapoiuytrewqzyxwvutsrqponmlkjihgfedcba")
  /\ len _sequences = 156
  /\ map (fun d => count_occ N.eq_dec numbers_row d) (u "0123456789")
     = [2; 1; 1; 1; 1; 1; 1; 1; 1; 1]%nat.
Proof. repeat split; vm_compute; reflexivity. Qed.

(** ** Combinations, entropy and strength: results *)

(** C10: for the empty password the alphabet has 0 elements and the length
    is 0, and [combinations] is 0 to the power 0, the integer 1. *)
Theorem combinations_empty :
  alphabet_cardinality (u "") = 0 /\ len (u "") = 0 /\ combinations (u "") = 1.
Proof. repeat split. Qed.

(** C1, on the code: for the empty password the alphabet has 0 elements and
    [math.log(0, 2)] raises ValueError, whatever the C library's logarithm
    is; [entropy_bits] does not return 0.0 there. *)
Theorem entropy_bits_empty_raises (libm_log : float -> float) :
  entropy_bits libm_log (u "") = Raised ValueError.
Proof. reflexivity. Qed.

(** On a concrete password the call returns normally, with [None]; it
    raises nothing. *)
Lemma strength_does_not_raise :
  strength (u "correct horse") = Done None
  /\ ~ exists e, strength (u "correct horse") = Raised e.
Proof. split; [reflexivity|]. intros [e He]. discriminate He. Qed.

(** C3, on the code: for every password [strength] returns [None]
    silently.  The docstring promises a number in the range 0..1 (a float);
    the body is missing, so the call neither returns a number nor signals
    that the method is not implemented. *)
Theorem strength_returns_none (password : unicode) :
  strength password = Done None
  /\ (forall x : float, strength password <> Done (Some x))
  /\ (forall e : exn, strength password <> Raised e).
Proof. repeat split; intros; discriminate. Qed.

(** ** The repeated-pattern detector: results *)

Section RepeatedPatternsExt.

(** The matcher lowers only characters of the text it is given: two
    lowerings that agree on the text give the same matches. *)
Variables f g : codepoint -> codepoint.

Lemma groupref_ignore_ext (group text : unicode) :
  agree f g group -> agree f g text ->
  groupref_ignore f group text = groupref_ignore g group text.
Proof.
  intros Hg. revert text.
  induction Hg as [|a group Ha Hg IH]; intros text Ht; [reflexivity|].
  destruct Ht as [|b text Hb Ht]; [reflexivity|].
  simpl. rewrite Ha, Hb, (IH text Ht). reflexivity.
Qed.

Lemma max_repeat_groupref_ext (fuel : nat) (group text : unicode) :
  agree f g group -> agree f g text ->
  max_repeat_groupref f fuel group text = max_repeat_groupref g fuel group text.
Proof.
  intros Hg. revert text.
  induction fuel as [|fuel IH]; intros text Ht; [reflexivity|].
  simpl. rewrite (groupref_ignore_ext group text Hg Ht).
  rewrite (IH (drop (length group) text)); [reflexivity|].
  apply Forall_drop, Ht.
Qed.

Lemma min_repeat_any_ext (candidates k : nat) (text : unicode) :
  agree f g text ->
  min_repeat_any f candidates k text = min_repeat_any g candidates k text.
Proof.
  intros Ht. revert k.
  induction candidates as [|candidates IH]; intros k; [reflexivity|].
  simpl. rewrite (max_repeat_groupref_ext _ (take k text) (drop k text)).
  - rewrite IH. reflexivity.
  - apply Forall_take, Ht.
  - apply Forall_drop, Ht.
Qed.

Lemma findall_ext (fuel : nat) (text : unicode) :
  agree f g text -> findall f fuel text = findall g fuel text.
Proof.
  revert text. induction fuel as [|fuel IH]; intros text Ht; [reflexivity|].
  destruct text as [|c text']; [reflexivity|].
  cbn [findall]. unfold sre_match.
  rewrite (min_repeat_any_ext _ _ (c :: text') Ht).
  destruct (min_repeat_any g (length (c :: text')) 1 (c :: text'))
    as [[n k]|].
  - rewrite (IH (drop n (c :: text'))); [reflexivity|].
    apply Forall_drop, Ht.
  - apply IH. now inversion Ht.
Qed.

Lemma repeated_patterns_length_ext (password : unicode) :
  agree f g password ->
  repeated_patterns_length f password = repeated_patterns_length g password.
Proof.
  intros Ht. unfold repeated_patterns_length.
  rewrite (findall_ext _ password Ht). reflexivity.
Qed.

End RepeatedPatternsExt.

(** ** The counters: results *)

Section Counters.

Lemma fold_left_add_acc (l : list Z) (a : Z) :
  fold_left Z.add l a = a + fold_left Z.add l 0.
Proof.
  revert a. induction l as [|x l IH]; intros a; simpl; [lia|].
  rewrite (IH (a + x)), (IH (0 + x)). lia.
Qed.

Lemma sum_cons (x : Z) (l : list Z) : sum (x :: l) = x + sum l.
Proof. unfold sum. simpl. apply fold_left_add_acc. Qed.

Lemma sum_Permutation (l l' : list Z) : l ≡ₚ l' -> sum l = sum l'.
Proof.
  induction 1 as [|x l l' _ IH|x y l|l l' l'' _ IH1 _ IH2].
  - reflexivity.
  - rewrite !sum_cons, IH. reflexivity.
  - rewrite !sum_cons. lia.
  - congruence.
Qed.

Lemma values_total_empty : values_total ∅ = 0.
Proof. unfold values_total. rewrite map_to_list_empty. reflexivity. Qed.

Lemma values_total_insert_fresh (c : gmap string Z) (k : string) (n : Z) :
  c !! k = None -> values_total (<[k := n]> c) = n + values_total c.
Proof.
  intros Hk. unfold values_total.
  rewrite (sum_Permutation _ (map snd ((k, n) :: map_to_list c))).
  - simpl. apply sum_cons.
  - apply Permutation_map, map_to_list_insert, Hk.
Qed.

(** [c[k] += n] adds [n] to the total of the counter. *)
Lemma values_total_add (c : gmap string Z) (k : string) (n : Z) :
  values_total (<[k := getitem c k + n]> c) = values_total c + n.
Proof.
  unfold getitem. destruct (c !! k) as [x|] eqn:Hk; simpl.
  - rewrite <- insert_delete_eq.
    rewrite values_total_insert_fresh by apply lookup_delete_eq.
    rewrite <- (insert_id c k x Hk) at 2.
    rewrite <- insert_delete_eq.
    rewrite (values_total_insert_fresh (delete k c) k x)
      by apply lookup_delete_eq.
    lia.
  - rewrite values_total_insert_fresh by exact Hk. lia.
Qed.

Lemma values_total_Counter_acc (items : list string) (c : gmap string Z) :
  values_total (fold_left (fun c x => <[x := getitem c x + 1]> c) items c)
  = values_total c + len items.
Proof.
  revert c. induction items as [|x items IH]; intros c; simpl.
  - unfold len. simpl. lia.
  - rewrite IH, values_total_add, len_cons. lia.
Qed.

Lemma values_total_Counter (items : list string) :
  values_total (Counter items) = len items.
Proof.
  unfold Counter. rewrite values_total_Counter_acc, values_total_empty. lia.
Qed.

Variable category : codepoint -> category_code.

(** Every character is counted once in the detailed counter. *)
Lemma values_total_detailed (password : unicode) :
  values_total (char_categories_detailed category password) = len password.
Proof.
  unfold char_categories_detailed. rewrite values_total_Counter.
  unfold len. rewrite length_map. reflexivity.
Qed.

(** Grouping by the first letter keeps the total. *)
Lemma values_total_char_categories (password : unicode) :
  values_total (char_categories category password) = len password.
Proof.
  rewrite <- values_total_detailed. unfold char_categories.
  apply (map_fold_weak_ind
           (fun (r : gmap string Z) (m : gmap string Z) =>
              values_total r = values_total m)).
  - reflexivity.
  - intros cat n m r Hfresh IH.
    rewrite values_total_add, values_total_insert_fresh by exact Hfresh.
    lia.
Qed.

(** Each entry is counted by exactly one of [count] and [count_except]. *)
Lemma count_split (categories : list string) (items : list (string * Z)) :
  sum (map (fun '(cat, n) => int (bool_decide (cat ∈ categories)) * n) items)
  + sum (map (fun '(cat, n) =>
                int (negb (bool_decide (cat ∈ categories))) * n) items)
  = sum (map snd items).
Proof.
  induction items as [|[cat n] items IH]; [reflexivity|].
  cbn [map snd]. rewrite !sum_cons, <- IH.
  destruct (bool_decide (cat ∈ categories)); unfold int; simpl negb; cbv iota; lia.
Qed.

End Counters.

(** C7: for every password and every tuple of category letters,
    [count(categories) + count_except(categories)] is the length of the
    password, whatever general category the Unicode database gives to each
    code point. *)
Theorem count_plus_count_except (category : codepoint -> category_code)
        (password : unicode) (categories : list string) :
  count category password categories + count_except category password categories
  = length_ password.
Proof.
  unfold count, count_except, length_.
  rewrite count_split. apply values_total_char_categories.
Qed.

(** ** Conversion of lengths to floats *)

Section FloatOfInt.

Lemma digits2_pos_lt_pow (p : positive) : Zpos p < 2 ^ Zpos (digits2_pos p).
Proof.
  induction p as [p IH|p IH|]; simpl digits2_pos;
    rewrite ?Pos2Z.inj_succ, ?Z.pow_succ_r by lia; lia.
Qed.

Lemma digits2_pos_le (p : positive) (k : Z) :
  0 <= k -> Zpos p < 2 ^ k -> Zpos (digits2_pos p) <= k.
Proof.
  revert k. induction p as [p IH|p IH|]; intros k Hk Hp; simpl digits2_pos.
  - assert (Hk1 : k = Z.succ (k - 1)) by lia.
    destruct (Z.eq_dec k 0) as [->|Hne]; [simpl in Hp; lia|].
    rewrite Hk1, Z.pow_succ_r in Hp by lia.
    specialize (IH (k - 1)). rewrite Pos2Z.inj_succ. lia.
  - assert (Hk1 : k = Z.succ (k - 1)) by lia.
    destruct (Z.eq_dec k 0) as [->|Hne]; [simpl in Hp; lia|].
    rewrite Hk1, Z.pow_succ_r in Hp by lia.
    specialize (IH (k - 1)). rewrite Pos2Z.inj_succ. lia.
  - destruct (Z.eq_dec k 0) as [->|Hne]; [simpl in Hp; lia|lia].
Qed.

Lemma Zdigits2_le (r k : Z) : 0 <= k -> 0 <= r < 2 ^ k -> Zdigits2 r <= k.
Proof.
  intros Hk [Hr Hlt]. destruct r as [|p|p]; simpl; [lia| |lia].
  now apply digits2_pos_le.
Qed.

Lemma digits2_pos_iter_xO (p d : positive) :
  digits2_pos (Pos.iter xO p d) = (digits2_pos p + d)%positive.
Proof.
  induction d as [|d IH] using Pos.peano_ind.
  - simpl. lia.
  - rewrite Pos.iter_succ. simpl. rewrite IH. lia.
Qed.

Lemma shr_1_m (mrs : shr_record) :
  0 <= shr_m mrs -> 0 <= shr_m (shr_1 mrs) <= shr_m mrs.
Proof.
  destruct mrs as [m r s]. simpl.
  destruct m as [|[p|p|]|[p|p|]]; simpl; lia.
Qed.

Lemma iter_shr_1_m (n : positive) (mrs : shr_record) :
  0 <= shr_m mrs -> 0 <= shr_m (SpecFloat.iter_pos shr_1 n mrs) <= shr_m mrs.
Proof.
  revert mrs. induction n as [n IH|n IH|]; intros mrs Hm; simpl.
  - pose proof (shr_1_m mrs Hm) as H1.
    pose proof (IH (shr_1 mrs) ltac:(lia)) as H2.
    pose proof (IH (SpecFloat.iter_pos shr_1 n (shr_1 mrs)) ltac:(lia)) as H3. lia.
  - pose proof (IH mrs Hm) as H2.
    pose proof (IH (SpecFloat.iter_pos shr_1 n mrs) ltac:(lia)) as H3. lia.
  - now apply shr_1_m.
Qed.

(** One normalising shift: the mantissa stays non-negative and does not
    grow; the exponent is the larger of the old one and the canonical
    one. *)
Lemma shr_fexp_bounds (m e : Z) (l : location) :
  0 <= m ->
  let '(mrs, e') := shr_fexp prec emax m e l in
  0 <= shr_m mrs <= m
  /\ e' = Z.max e (fexp prec emax (Zdigits2 m + e)).
Proof.
  intros Hm. unfold shr_fexp, shr.
  assert (Hrec : shr_m (shr_record_of_loc m l) = m)
    by (destruct l as [|[]]; reflexivity).
  destruct (fexp prec emax (Zdigits2 m + e) - e) as [|n|n] eqn:Hn.
  - rewrite Hrec. split; [lia|lia].
  - pose proof (iter_shr_1_m n (shr_record_of_loc m l)) as H.
    rewrite Hrec in H. split; [apply H, Hm|lia].
  - rewrite Hrec. split; [lia|lia].
Qed.

Lemma round_nearest_even_bounds (m : Z) (l : location) :
  0 <= m -> 0 <= round_nearest_even m l <= m + 1.
Proof.
  intros Hm. unfold round_nearest_even.
  destruct l as [|[]]; try destruct (Z.even m); lia.
Qed.

(** Rounding a non-negative mantissa of at most 63 digits whose exponent
    is at most 10 neither overflows nor loses its sign. *)
Lemma binary_round_aux_finite (mx ex : Z) (lx : location) :
  0 <= mx < 2 ^ 63 -> ex <= 0 -> Zdigits2 mx + ex <= 63 ->
  match binary_round_aux prec emax false mx ex lx with
  | S754_zero false | S754_finite false _ _ => True
  | _ => False
  end.
Proof.
  intros Hmx Hex Hd. unfold binary_round_aux.
  pose proof (shr_fexp_bounds mx ex lx ltac:(lia)) as H1.
  destruct (shr_fexp prec emax mx ex lx) as [mrs' e'].
  destruct H1 as [Hm' He'].
  pose proof (round_nearest_even_bounds (shr_m mrs') (loc_of_shr_record mrs')
                ltac:(lia)) as Hr.
  set (r := round_nearest_even (shr_m mrs') (loc_of_shr_record mrs')) in *.
  pose proof (shr_fexp_bounds r e' loc_Exact ltac:(lia)) as H2.
  destruct (shr_fexp prec emax r e' loc_Exact) as [mrs'' e''].
  destruct H2 as [Hm'' He''].
  assert (Hrd : Zdigits2 r <= 64).
  { apply Zdigits2_le; [lia|]. change (2 ^ 64) with (2 * 2 ^ 63). lia. }
  unfold fexp, emin, prec, emax in *.
  destruct (shr_m mrs'') as [|m|m]; [exact I| |lia].
  destruct (Z.leb_spec e'' (1024 - 53)); [exact I|lia].
Qed.

Lemma float_of_int_finite (n : Z) :
  0 <= n < 2 ^ 63 ->
  match float_of_int n with
  | S754_zero false | S754_finite false _ _ => True
  | _ => False
  end.
Proof.
  intros Hn. unfold float_of_int, binary_normalize.
  destruct n as [|p|p]; [exact I| |lia].
  unfold binary_round, shl_align.
  assert (Hp : Zpos (digits2_pos p) <= 63)
    by (apply digits2_pos_le; lia).
  destruct (fexp prec emax (Zpos (digits2_pos p) + 0) - 0) as [|d|d] eqn:Hf;
    try (apply binary_round_aux_finite; simpl Zdigits2; lia).
  unfold fexp, emin, prec, emax in Hf.
  assert (Hdig : Zpos (digits2_pos (Pos.iter xO p d)) = 53)
    by (rewrite digits2_pos_iter_xO; lia).
  apply binary_round_aux_finite.
  - split; [lia|]. pose proof (digits2_pos_lt_pow (Pos.iter xO p d)) as H.
    rewrite Hdig in H.
    assert (2 ^ 53 < 2 ^ 63) by (apply Z.pow_lt_mono_r; lia). lia.
  - unfold fexp, emin, prec, emax. lia.
  - simpl Zdigits2. rewrite Hdig. unfold fexp, emin, prec, emax. lia.
Qed.

End FloatOfInt.

(** ** Entropy of a one-symbol alphabet *)

(** X19: when the alphabet has exactly one code point, [log(1, 2)] is
    [+0.0] divided by [log(2.0)], and the product with the length is [+0.0]:
    [entropy_bits] returns [+0.0].  The C library is assumed to give
    [log(1.0) = +0.0] and a positive finite [log(2.0)]. *)
Theorem entropy_bits_single_symbol (libm_log : float -> float)
        (password : unicode) :
  libm_log (float_of_int 1) = S754_zero false ->
  (exists m e, libm_log (float_of_int 2) = S754_finite false m e) ->
  alphabet_cardinality password = 1 ->
  len password <= sys_maxint ->
  entropy_bits libm_log password = Done (S754_zero false).
Proof.
  intros Hone (m & e & Htwo) Hcard Hlen.
  unfold entropy_bits, log. rewrite Hcard.
  assert (E1 : exists m1 e1, float_of_int 1 = S754_finite false m1 e1)
    by (vm_compute; eauto).
  assert (E2 : exists m2 e2, float_of_int 2 = S754_finite false m2 e2)
    by (vm_compute; eauto).
  destruct E1 as (m1 & e1 & E1). destruct E2 as (m2 & e2 & E2).
  rewrite E1 in *. rewrite E2 in *. unfold math_1. cbn [m_log].
  rewrite Hone, Htwo. cbn [Py_IS_NAN Py_IS_INFINITY andb bind].
  cbn [float_div bind SFdiv xorb].
  pose proof (float_of_int_finite (len password)) as Hfin.
  unfold sys_maxint in Hlen. pose proof (len_nonneg password).
  specialize (Hfin ltac:(lia)).
  unfold float_mul.
  destruct (float_of_int (len password)) as [[|]|[|]| |[|] mx ex];
    try contradiction; reflexivity.
Qed.

Lemma entropy_bits_single_symbol_witness :
  entropy_bits libm_log_excerpt (u "aaaa") = Done (S754_zero false).
Proof.
  apply (entropy_bits_single_symbol libm_log_excerpt (u "aaaa")).
  - reflexivity.
  - vm_compute. eauto.
  - reflexivity.
  - vm_compute. discriminate.
Defined.

(** ** The repeated-pattern detector: shape of the matches *)

Section RepeatedPatternsShape.

Variable tolower : codepoint -> codepoint.

Lemma groupref_ignore_true (group text : unicode) :
  groupref_ignore tolower group text = true ->
  (length group <= length text)%nat
  /\ map tolower (take (length group) text) = map tolower group.
Proof.
  revert text. induction group as [|a group IH]; intros text H.
  - simpl. split; [lia|reflexivity].
  - destruct text as [|b text]; [discriminate|].
    simpl in H. apply andb_true_iff in H as [Hab H].
    apply N.eqb_eq in Hab. destruct (IH text H) as [Hl Hm].
    simpl. split; [lia|]. rewrite Hm, Hab. reflexivity.
Qed.

(** The greedy repetition takes whole copies of the group, stays inside the
    text and stops only where no further copy follows. *)
Lemma max_repeat_groupref_shape (fuel : nat) (group text : unicode) :
  group <> [] -> (length text <= fuel)%nat ->
  exists q : nat,
    max_repeat_groupref tolower fuel group text = (q * length group)%nat
    /\ (q * length group <= length text)%nat
    /\ map tolower (take (q * length group) text)
       = map tolower (concat (replicate q group))
    /\ groupref_ignore tolower group (drop (q * length group) text) = false.
Proof.
  intros Hne. revert text.
  induction fuel as [|fuel IH]; intros text Hfuel.
  - exists O. destruct text; [|simpl in Hfuel; lia].
    repeat split; try reflexivity. destruct group; [congruence|reflexivity].
  - cbn [max_repeat_groupref].
    destruct (groupref_ignore tolower group text) eqn:E.
    + destruct (groupref_ignore_true group text E) as [Hl Hm].
      assert (Hpos : (1 <= length group)%nat)
        by (destruct group; [congruence|simpl; lia]).
      destruct (IH (drop (length group) text)) as (q & Hr & Hq & Hmap & Hstop).
      { rewrite length_drop. lia. }
      rewrite length_drop in Hq.
      exists (S q). rewrite Hr. cbn [Nat.mul replicate concat].
      repeat split; [lia| |].
      * rewrite <- take_take_drop, !map_app, Hm, Hmap. reflexivity.
      * rewrite <- drop_drop. exact Hstop.
    + exists O. cbn [Nat.mul replicate concat]. rewrite drop_0.
      repeat split; [lia|exact E].
Qed.

(** The lazy search returns the first unit length, from [k] on, that is
    followed by a copy of the unit. *)
Lemma min_repeat_any_shape (candidates k : nat) (text : unicode) (n k' : nat) :
  (1 <= k)%nat -> (k + candidates <= S (length text))%nat ->
  min_repeat_any tolower candidates k text = Some (n, k') ->
  is_repeat tolower text n k'.
Proof.
  revert k. induction candidates as [|candidates IH]; intros k Hk Hc H;
    [discriminate|].
  cbn [min_repeat_any] in H.
  set (group := take k text) in *. set (rest := drop k text) in *.
  assert (Hlg : length group = k) by (apply length_take_le; lia).
  assert (Hne : group <> []) by (intros E; rewrite E in Hlg; simpl in Hlg; lia).
  destruct (max_repeat_groupref_shape (length rest) group rest Hne (le_n _))
    as (q & Hr & Hq & Hmap & Hstop).
  rewrite Hr, Hlg in *.
  destruct (Nat.ltb_spec 0 (q * k)) as [Hpos|Hzero].
  - injection H as <- <-. split; [exact Hk|].
    exists (S q). unfold rest in Hq. rewrite length_drop in Hq.
    assert (Hq1 : (1 <= q)%nat) by (destruct q; simpl in Hpos; lia).
    repeat split; [lia|lia| |].
    + rewrite <- take_take_drop, map_app. fold rest group. rewrite Hmap.
      cbn [replicate concat]. rewrite map_app. reflexivity.
    + rewrite <- drop_drop. exact Hstop.
  - apply (IH (S k)); [lia|lia|exact H].
Qed.

Lemma sre_match_shape (text : unicode) (n k : nat) :
  sre_match tolower text = Some (n, k) -> is_repeat tolower text n k.
Proof. apply min_repeat_any_shape; lia. Qed.

(** The matches do not overlap: their spans add up to at most the text. *)
Lemma findall_spans (fuel : nat) (text : unicode) (total : Z) :
  total
  <= fold_left (fun length '(substring, pattern) => length + len substring)
               (findall tolower fuel text) total
  <= total + len text.
Proof.
  revert text total. induction fuel as [|fuel IH]; intros text total.
  - simpl. pose proof (len_nonneg text). lia.
  - destruct text as [|c text']; [simpl; unfold len; simpl; lia|].
    cbn [findall].
    destruct (sre_match tolower (c :: text')) as [[n k]|] eqn:E.
    + destruct (sre_match_shape _ _ _ E) as (_ & q & _ & _ & Hn & _).
      cbn [fold_left].
      specialize (IH (drop n (c :: text')) (total + len (take n (c :: text')))).
      unfold len in *. rewrite length_take_le in * by exact Hn.
      rewrite length_drop in IH. lia.
    + specialize (IH text' total). rewrite len_cons. lia.
Qed.

End RepeatedPatternsShape.

(** ** The sequence detector: how the scan composes *)

Section SequenceScan.

Local Opaque _sequences.

(** Once the budget covers the rest of the password, more of it changes
    nothing. *)
Lemma scan_loop_fuel (fuel1 fuel2 : nat) (password : unicode) (i total : Z) :
  0 <= i <= len password ->
  (Z.to_nat (len password - i) <= fuel1)%nat ->
  (Z.to_nat (len password - i) <= fuel2)%nat ->
  scan_loop fuel1 password i total = scan_loop fuel2 password i total.
Proof.
  revert fuel2 i total.
  induction fuel1 as [|fuel1 IH]; intros fuel2 i total Hi H1 H2.
  - destruct fuel2; simpl; destruct (Z.ltb_spec i (len password)); try lia;
      reflexivity.
  - destruct fuel2 as [|fuel2].
    + simpl. destruct (Z.ltb_spec i (len password)); [lia|reflexivity].
    + cbn [scan_loop]. destruct (Z.ltb_spec i (len password)) as [Hlt|Hge];
        [|reflexivity].
      destruct (slice_from_cons password i ltac:(lia)) as (c & rest & Hs).
      pose proof (len_slice_from password i ltac:(lia)) as Hl.
      rewrite Hs in *.
      destruct (longest_common_done c rest) as (cl & Hcl & Hb).
      rewrite Hcl. cbn [bind]. apply IH; lia.
Qed.

Lemma slice_from_slice_from (password : unicode) (i j : Z) :
  0 <= i -> 0 <= j ->
  slice_from (slice_from password i) j = slice_from password (i + j).
Proof.
  intros Hi Hj. unfold slice_from. rewrite drop_drop. f_equal. lia.
Qed.

(** The scan from the cursor [i] adds to the running total what a fresh scan
    of the slice [password[i:]] returns. *)
Lemma scan_loop_slice (fuel : nat) (password : unicode) (i total : Z) :
  0 <= i <= len password ->
  (Z.to_nat (len password - i) <= fuel)%nat ->
  exists r,
    sequences_length (slice_from password i) = Done r
    /\ scan_loop fuel password i total = Done (total + r).
Proof.
  revert password i total.
  induction fuel as [|fuel IH]; intros password i total Hi Hfuel.
  - assert (i = len password) as -> by lia.
    unfold slice_from, len. rewrite Nat2Z.id, drop_all.
    exists 0. split; [reflexivity|]. simpl. rewrite Z.ltb_irrefl.
    f_equal. lia.
  - destruct (Z.ltb_spec i (len password)) as [Hlt|Hge].
    + destruct (slice_from_cons password i ltac:(lia)) as (c & rest & Hs).
      pose proof (len_slice_from password i ltac:(lia)) as Hl.
      destruct (longest_common_done c rest) as (cl & Hcl & Hb).
      rewrite Hs in Hl.
      destruct (IH password (i + cl) (if cl >? 1 then total + cl else total))
        as (r1 & Hr1 & Hs1); [lia|lia|].
      destruct (IH (c :: rest) cl (if cl >? 1 then 0 + cl else 0))
        as (r2 & Hr2 & Hs2); [lia|lia|].
      rewrite <- Hs, slice_from_slice_from in Hr2 by lia.
      rewrite Hr1 in Hr2. injection Hr2 as <-.
      exists ((if cl >? 1 then cl else 0) + r1). split.
      * rewrite Hs. unfold sequences_length. cbn [length scan_loop].
        rewrite len_cons.
        destruct (Z.ltb_spec 0 (len rest + 1));
          [|pose proof (len_nonneg rest); lia].
        change (slice_from (c :: rest) 0) with (c :: rest).
        rewrite Hcl. cbn [bind].
        rewrite (scan_loop_fuel (length rest) fuel)
          by (rewrite ?len_cons in *; unfold len in *; lia).
        change (0 + cl) with cl in Hs2. rewrite Z.add_0_l in *.
        rewrite Hs2. destruct (cl >? 1); f_equal; lia.
      * cbn [scan_loop]. destruct (Z.ltb_spec i (len password)); [|lia].
        rewrite Hs, Hcl. cbn [bind]. rewrite Hs1.
        destruct (cl >? 1); f_equal; lia.
    + assert (i = len password) as -> by lia.
      unfold slice_from, len. rewrite Nat2Z.id, drop_all.
      exists 0. split; [reflexivity|]. cbn [scan_loop].
      fold (len password). rewrite Z.ltb_irrefl. f_equal. lia.
Qed.

End SequenceScan.

Lemma sequences_length_unfold (c : codepoint) (rest : unicode) :
  exists common_length r,
    longest_common (c :: rest) = Done common_length
    /\ 1 <= common_length <= len (c :: rest)
    /\ sequences_length (slice_from (c :: rest) common_length) = Done r
    /\ sequences_length (c :: rest)
       = Done ((if common_length >? 1 then common_length else 0) + r).
Proof.
  destruct (longest_common_done c rest) as (cl & Hcl & Hb).
  destruct (scan_loop_slice (length rest) (c :: rest) cl
                            (if cl >? 1 then cl else 0))
    as (r & Hr & Hs); [lia|rewrite len_cons in *; unfold len in *; lia|].
  exists cl, r. repeat split; try assumption; try lia.
  unfold sequences_length. cbn [length scan_loop]. rewrite len_cons.
  destruct (Z.ltb_spec 0 (len rest + 1)); [|pose proof (len_nonneg rest); lia].
  change (slice_from (c :: rest) 0) with (c :: rest).
  rewrite Hcl. cbn [bind]. rewrite ?Z.add_0_l. rewrite Hs. reflexivity.
Qed.

(** X1: the skip-ahead law of the scan.  For a non-empty password the first
    run has a length [common_length] between 1 and the length of the
    password; the result is that length, if it exceeds 1, plus the result of
    the detector on what follows the run. *)
Theorem sequences_length_skip_ahead (c : codepoint) (rest : unicode) :
  exists common_length r,
    longest_common (c :: rest) = Done common_length
    /\ 1 <= common_length <= len (c :: rest)
    /\ sequences_length (slice_from (c :: rest) common_length) = Done r
    /\ sequences_length (c :: rest)
       = Done ((if common_length >? 1 then common_length else 0) + r).
Proof. apply sequences_length_unfold. Qed.

(** ** The sequence detector: what a run is *)

Section SequenceRuns.

Local Opaque _sequences.

Lemma scan_loop_not_one (fuel : nat) (password : unicode) (i total n : Z) :
  scan_loop fuel password i total = Done n ->
  total = 0 \/ 2 <= total -> n = 0 \/ 2 <= n.
Proof.
  revert i total. induction fuel as [|fuel IH]; intros i total H Ht.
  - simpl in H. destruct (i <? len password); [discriminate|].
    injection H as <-. exact Ht.
  - cbn [scan_loop] in H. destruct (i <? len password).
    + destruct (longest_common (slice_from password i)) as [cl| |];
        cbn [bind] in H; try discriminate.
      apply IH in H; [exact H|]. destruct (Z.gtb_spec cl 1); lia.
    + injection H as <-. exact Ht.
Qed.

Lemma index_from_none (s : unicode) (c : codepoint) (k : Z) (j : nat) :
  0 <= k -> index_from s c k = -1 -> s !! j <> Some c.
Proof.
  revert k j. induction s as [|a s IH]; intros k j Hk H; [now destruct j|].
  simpl in H. destruct (N.eqb_spec a c) as [|Hne]; [lia|].
  destruct j as [|j]; simpl; [congruence|]. apply (IH (k + 1)); [lia|exact H].
Qed.

Lemma index_from_skip (s : unicode) (c : codepoint) (k : Z) (j : nat) :
  0 <= k -> index_from s c k <> -1 -> k + Z.of_nat j < index_from s c k ->
  s !! j <> Some c.
Proof.
  revert k j. induction s as [|a s IH]; intros k j Hk H Hj; [now destruct j|].
  simpl in H, Hj. destruct (N.eqb_spec a c) as [|Hne]; [lia|].
  destruct j as [|j]; simpl; [congruence|].
  apply (IH (k + 1)); [lia|exact H|lia].
Qed.

(** [find] skips no occurrence: no position from [start] up to the index
    found, or up to the end when nothing is found, holds the character. *)
Lemma find_skip (s : unicode) (c : codepoint) (start j : Z) :
  0 <= start <= j ->
  find s c start = -1 \/ j < find s c start ->
  s !! Z.to_nat j <> Some c.
Proof.
  intros Hs H. unfold find in *.
  destruct (Z.ltb_spec start 0) as [?|_]; [lia|].
  replace (Z.to_nat j) with (Z.to_nat start + Z.to_nat (j - start))%nat by lia.
  rewrite <- (lookup_drop s). fold (slice_from s start).
  destruct (Z.eq_dec (index_from (slice_from s start) c start) (-1)) as [E|E].
  - apply (index_from_none _ _ start); [lia|exact E].
  - apply (index_from_skip _ _ start); [lia|exact E|lia].
Qed.

(** Where the table does not hold the first character of the password, the
    common prefix is empty. *)
Lemma common_prefix_miss (c : codepoint) (rest table : unicode) (j : Z) :
  0 <= j -> table !! Z.to_nat j <> Some c ->
  common_prefix (c :: rest) (slice_from table j) = [].
Proof.
  intros Hj H. unfold slice_from.
  destruct (drop (Z.to_nat j) table) as [|b t] eqn:E; [reflexivity|].
  assert (Hb : table !! Z.to_nat j = Some b).
  { rewrite <- (Nat.add_0_r (Z.to_nat j)), <- (lookup_drop table), E.
    reflexivity. }
  simpl. destruct (N.eqb_spec c b) as [->|]; [congruence|reflexivity].
Qed.

(** The inner loop returns the longest common prefix over the positions it
    has not yet passed, or the length it started with. *)
Lemma occurrences_loop_max (fuel : nat) (c : codepoint) (rest : unicode)
      (j common_length : Z) :
  -1 <= j ->
  (Z.to_nat (len _sequences - (j + 1)) < fuel)%nat ->
  1 <= common_length ->
  exists r,
    occurrences_loop fuel (c :: rest) j common_length = Done r
    /\ common_length <= r
    /\ (forall j', j < j' ->
          len (common_prefix (c :: rest) (slice_from _sequences j')) <= r)
    /\ (r = common_length
        \/ exists j', j < j' < len _sequences
             /\ r = len (common_prefix (c :: rest) (slice_from _sequences j'))).
Proof.
  revert j common_length.
  induction fuel as [|fuel IH]; intros j cl Hj Hfuel Hcl; [lia|].
  cbn [occurrences_loop item0 bind].
  pose proof (find_range _sequences c (j + 1) ltac:(lia)) as Hf.
  destruct (Z.eqb_spec (find _sequences c (j + 1)) (-1)) as [E|E].
  - exists cl. repeat split; [lia| |now left].
    intros j' Hj'. rewrite common_prefix_miss; [unfold len; simpl; lia|lia|].
    apply (find_skip _ _ (j + 1)); [lia|now left].
  - destruct Hf as [Hf|Hf]; [contradiction|].
    set (jn := find _sequences c (j + 1)) in *.
    set (here := len (common_prefix (c :: rest) (slice_from _sequences jn))).
    destruct (IH jn (Z.max cl here)) as (r & Hr & Hle & Hall & Hex);
      [lia|lia|lia|].
    exists r. repeat split; [exact Hr|lia| |].
    + intros j' Hj'. destruct (Z.lt_trichotomy j' jn) as [Hlt|[->|Hgt]].
      * rewrite common_prefix_miss; [unfold len; simpl; lia|lia|].
        apply (find_skip _ _ (j + 1)); [lia|right; exact Hlt].
      * fold here. lia.
      * apply Hall, Hgt.
    + destruct Hex as [->|(j' & Hj' & ->)].
      * destruct (Z.max_spec cl here) as [[_ ->]|[_ ->]];
          [right; exists jn; split; [lia|reflexivity]|now left].
      * right. exists j'. split; [lia|reflexivity].
Qed.

Lemma common_prefix_take (n : nat) (l : unicode) :
  common_prefix (take n l) l = take n l.
Proof.
  revert l. induction n as [|n IH]; intros [|a l]; try reflexivity.
  simpl. rewrite N.eqb_refl, IH. reflexivity.
Qed.

(** A character that the table does not hold ends every common prefix. *)
Lemma common_prefix_stop (s : unicode) (c : codepoint) (q table : unicode) :
  c ∉ table ->
  common_prefix (s ++ c :: q) table = common_prefix s table.
Proof.
  revert table. induction s as [|a s IH]; intros [|b t] Hc; try reflexivity.
  - simpl. destruct (N.eqb_spec c b) as [->|]; [|reflexivity].
    exfalso. apply Hc. left.
  - simpl. destruct (N.eqb a b); [|reflexivity]. simpl.
    rewrite IH; [reflexivity|]. intros Hin. apply Hc. now right.
Qed.

Lemma occurrences_loop_stop (fuel : nat) (a : codepoint) (s : unicode)
      (c : codepoint) (q : unicode) (j common_length : Z) :
  c ∉ _sequences ->
  occurrences_loop fuel ((a :: s) ++ c :: q) j common_length
  = occurrences_loop fuel (a :: s) j common_length.
Proof.
  intros Hc. revert j common_length.
  induction fuel as [|fuel IH]; intros j cl; [reflexivity|].
  cbn [occurrences_loop app item0 bind].
  destruct (find _sequences a (j + 1) =? -1); [reflexivity|].
  change (a :: s ++ c :: q) with ((a :: s) ++ c :: q).
  rewrite common_prefix_stop, IH; [reflexivity|].
  intros Hin. apply Hc. unfold slice_from in Hin.
  apply list_elem_of_lookup in Hin as [i Hi].
  rewrite (lookup_drop _sequences) in Hi.
  apply list_elem_of_lookup. eauto.
Qed.

End SequenceRuns.

(** X2: the detector never returns 1: a run counts only from two characters
    on, so the result is 0 or at least 2. *)
Theorem sequences_length_never_one (password : unicode) :
  exists n, sequences_length password = Done n /\ (n = 0 \/ 2 <= n).
Proof.
  unfold sequences_length.
  destruct (scan_loop_done (length password) password 0 0) as (n & Hn & _);
    [pose proof (len_nonneg password); lia|unfold len; lia|].
  exists n. split; [exact Hn|].
  apply (scan_loop_not_one _ _ _ _ _ Hn). now left.
Qed.

Lemma longest_common_max (c : codepoint) (rest : unicode) :
  exists r,
    longest_common (c :: rest) = Done r
    /\ 1 <= r
    /\ (forall j, 0 <= j ->
          len (common_prefix (c :: rest) (slice_from _sequences j)) <= r)
    /\ (r = 1
        \/ exists j, 0 <= j < len _sequences
             /\ r = len (common_prefix (c :: rest) (slice_from _sequences j))).
Proof.
  unfold longest_common, occurrences_fuel.
  destruct (occurrences_loop_max (S (length _sequences)) c rest (-1) 1)
    as (r & Hr & Hle & Hall & Hex); [lia|unfold len; lia|lia|].
  exists r. repeat split; [exact Hr|exact Hle| |].
  - intros j Hj. apply Hall. lia.
  - destruct Hex as [->|(j & Hj & ->)]; [now left|].
    right. exists j. split; [lia|reflexivity].
Qed.

(** X3: the length of a run is the length of the longest common prefix of
    the remaining password with the table read from any position (and 1 when
    no position gives more): no position gives a longer prefix, and a length
    above 1 is reached at some position of the table. *)
Theorem longest_common_is_longest (c : codepoint) (rest : unicode) :
  exists r,
    longest_common (c :: rest) = Done r
    /\ 1 <= r
    /\ (forall j, 0 <= j ->
          len (common_prefix (c :: rest) (slice_from _sequences j)) <= r)
    /\ (r = 1
        \/ exists j, 0 <= j < len _sequences
             /\ r = len (common_prefix (c :: rest) (slice_from _sequences j))).
Proof. apply longest_common_max. Qed.

(** X4: every stretch of two or more characters of the table, taken as a
    password, is one run, counted in full. *)
Theorem sequences_length_table_run (j n : nat) :
  (2 <= n)%nat -> (j + n <= length _sequences)%nat ->
  sequences_length (take n (drop j _sequences)) = Done (Z.of_nat n).
Proof.
  intros Hn Hj.
  assert (Hlen : length (take n (drop j _sequences)) = n)
    by (rewrite length_take_le; [reflexivity|rewrite length_drop; lia]).
  destruct (take n (drop j _sequences)) as [|c rest] eqn:E;
    [simpl in Hlen; lia|].
  destruct (sequences_length_unfold c rest) as (cl & r & Hcl & Hb & Hr & Hs).
  destruct (longest_common_max c rest) as (cl' & Hcl' & _ & Hall & _).
  rewrite Hcl in Hcl'. injection Hcl' as <-.
  specialize (Hall (Z.of_nat j) ltac:(lia)).
  unfold slice_from in Hall. rewrite Nat2Z.id, <- E, common_prefix_take in Hall.
  unfold len in Hall, Hb. rewrite E in Hall. rewrite Hlen in Hall, Hb.
  assert (cl = Z.of_nat n) as -> by lia.
  unfold slice_from in Hr. rewrite Nat2Z.id, drop_ge in Hr by lia.
  injection Hr as <-. rewrite Hs.
  destruct (Z.gtb_spec (Z.of_nat n) 1); [f_equal; lia|lia].
Qed.

Lemma sequences_length_table_run_witness :
  sequences_length (u "qwerty") = Done 6.
Proof.
  apply (sequences_length_table_run 26 6); vm_compute; lia.
Defined.

Section SequenceSplit.

Local Opaque _sequences.

Lemma index_from_absent (s : unicode) (c : codepoint) (k : Z) :
  c ∉ s -> index_from s c k = -1.
Proof.
  revert k. induction s as [|a s IH]; intros k Hc; [reflexivity|].
  simpl. destruct (N.eqb_spec a c) as [->|].
  - exfalso. apply Hc. left.
  - apply IH. intros Hin. apply Hc. now right.
Qed.

Lemma split_by_absent (n : nat) (p : unicode) (c : codepoint) (q : unicode) :
  c ∉ _sequences -> (length p <= n)%nat ->
  exists a b,
    sequences_length p = Done a
    /\ sequences_length q = Done b
    /\ sequences_length (p ++ c :: q) = Done (a + b).
Proof.
  intros Hc. revert p.
  induction n as [|n IH]; intros p Hp.
  - destruct p; [|simpl in Hp; lia].
    destruct (sequences_length_unfold c q) as (cl & r & Hcl & _ & Hr & Hs).
    rewrite longest_common_absent in Hcl
      by (unfold find; simpl; apply index_from_absent, Hc).
    injection Hcl as <-.
    exists 0, r. repeat split; [exact Hr|exact Hs].
  - destruct p as [|x p'].
    { apply (IH []). simpl. lia. }
    destruct (sequences_length_unfold x p') as (cl & r & Hcl & Hb & Hr & Hs).
    destruct (sequences_length_unfold x (p' ++ c :: q))
      as (cl' & r' & Hcl' & _ & Hr' & Hs').
    unfold longest_common in Hcl'.
    change (x :: p' ++ c :: q) with ((x :: p') ++ c :: q) in Hcl', Hr', Hs'.
    rewrite occurrences_loop_stop in Hcl' by exact Hc.
    unfold longest_common in Hcl. rewrite Hcl in Hcl'. injection Hcl' as <-.
    unfold slice_from in Hr'. rewrite drop_app_le in Hr'
      by (unfold len in Hb; lia).
    destruct (IH (slice_from (x :: p') cl)) as (a & b & Ha & Hq & Hab).
    { unfold slice_from. rewrite length_drop. simpl in *. lia. }
    unfold slice_from in Ha, Hab, Hr. rewrite Hr in Ha. injection Ha as <-.
    rewrite Hab in Hr'. injection Hr' as <-.
    exists ((if cl >? 1 then cl else 0) + r), b.
    repeat split; [exact Hs|exact Hq|]. rewrite Hs'. f_equal. lia.
Qed.

End SequenceSplit.

(** X5: a character that the table does not hold splits the password: the
    parts before and after it are scored on their own and the results
    added. *)
Theorem sequences_length_split (p : unicode) (c : codepoint) (q : unicode) :
  c ∉ _sequences ->
  exists a b,
    sequences_length p = Done a
    /\ sequences_length q = Done b
    /\ sequences_length (p ++ c :: q) = Done (a + b).
Proof. intros Hc. apply (split_by_absent (length p)); [exact Hc|lia]. Qed.

Lemma sequences_length_split_witness :
  exists a b,
    sequences_length (u "abc") = Done a
    /\ sequences_length (u "4321") = Done b
    /\ sequences_length (u "abc 4321") = Done (a + b).
Proof.
  apply (sequences_length_split (u "abc") 32%N (u "4321")).
  apply (bool_decide_unpack _). vm_compute. exact I.
Defined.

(** ** The classifier: what the counters count *)

Section CounterContents.

Lemma sum_indicator (test : codepoint -> bool) (password : unicode) :
  sum (map (fun c => int (test c)) password) = how_many test password.
Proof.
  unfold how_many. induction password as [|c p IH]; [reflexivity|].
  cbn [map List.filter]. rewrite sum_cons, IH.
  destruct (test c); unfold int; [rewrite len_cons|]; lia.
Qed.

Lemma how_many_bounds (test : codepoint -> bool) (password : unicode) :
  0 <= how_many test password <= len password.
Proof.
  unfold how_many. split; [apply len_nonneg|].
  unfold len. pose proof (List.filter_length_le test password). lia.
Qed.

Lemma weighted_total_empty (w : string -> Z) : weighted_total w ∅ = 0.
Proof. unfold weighted_total. rewrite map_to_list_empty. reflexivity. Qed.

Lemma weighted_total_insert_fresh (w : string -> Z) (c : gmap string Z)
      (k : string) (n : Z) :
  c !! k = None ->
  weighted_total w (<[k := n]> c) = w k * n + weighted_total w c.
Proof.
  intros Hk. unfold weighted_total.
  rewrite (sum_Permutation _ (map (fun '(k, n) => w k * n)
                                  ((k, n) :: map_to_list c))).
  - simpl. apply sum_cons.
  - apply Permutation_map, map_to_list_insert, Hk.
Qed.

Lemma weighted_total_add (w : string -> Z) (c : gmap string Z)
      (k : string) (n : Z) :
  weighted_total w (<[k := getitem c k + n]> c)
  = weighted_total w c + w k * n.
Proof.
  unfold getitem. destruct (c !! k) as [x|] eqn:Hk; simpl.
  - rewrite <- insert_delete_eq.
    rewrite weighted_total_insert_fresh by apply lookup_delete_eq.
    rewrite <- (insert_id c k x Hk) at 2.
    rewrite <- insert_delete_eq.
    rewrite (weighted_total_insert_fresh w (delete k c) k x)
      by apply lookup_delete_eq.
    lia.
  - rewrite weighted_total_insert_fresh by exact Hk. lia.
Qed.

Lemma weighted_total_Counter_acc (w : string -> Z) (items : list string)
      (c : gmap string Z) :
  weighted_total w (fold_left (fun c x => <[x := getitem c x + 1]> c) items c)
  = weighted_total w c + sum (map w items).
Proof.
  revert c. induction items as [|x items IH]; intros c; simpl.
  - unfold sum. simpl. lia.
  - rewrite IH, weighted_total_add, sum_cons. lia.
Qed.

Lemma weighted_total_Counter (w : string -> Z) (items : list string) :
  weighted_total w (Counter items) = sum (map w items).
Proof.
  unfold Counter. rewrite weighted_total_Counter_acc, weighted_total_empty.
  lia.
Qed.

Lemma getitem_add (c : gmap string Z) (k k' : string) (n : Z) :
  getitem (<[k := getitem c k + n]> c) k'
  = getitem c k' + (if String.eqb k k' then n else 0).
Proof.
  unfold getitem at 1. destruct (String.eqb_spec k k') as [->|Hne].
  - rewrite lookup_insert_eq. reflexivity.
  - rewrite lookup_insert_ne by exact Hne. fold (getitem c k'). lia.
Qed.

Lemma getitem_Counter_acc (items : list string) (c : gmap string Z)
      (k : string) :
  getitem (fold_left (fun c x => <[x := getitem c x + 1]> c) items c) k
  = getitem c k + sum (map (fun x => int (String.eqb x k)) items).
Proof.
  revert c. induction items as [|x items IH]; intros c; simpl.
  - unfold sum. simpl. lia.
  - rewrite IH, getitem_add, sum_cons. unfold int.
    destruct (String.eqb x k); lia.
Qed.

Variable category : codepoint -> category_code.

Lemma getitem_detailed (password : unicode) (k : string) :
  getitem (char_categories_detailed category password) k
  = how_many (fun c => String.eqb (code (category c)) k) password.
Proof.
  unfold char_categories_detailed, Counter.
  rewrite getitem_Counter_acc, map_map, sum_indicator. reflexivity.
Qed.

Lemma weighted_total_detailed (w : string -> Z) (password : unicode) :
  weighted_total w (char_categories_detailed category password)
  = sum (map (fun c => w (code (category c))) password).
Proof.
  unfold char_categories_detailed.
  rewrite weighted_total_Counter, map_map. reflexivity.
Qed.

Lemma weighted_total_char_categories (w : string -> Z) (password : unicode) :
  weighted_total w (char_categories category password)
  = weighted_total (fun cat => w (first_letter cat))
                   (char_categories_detailed category password).
Proof.
  unfold char_categories.
  apply (map_fold_weak_ind
           (fun (r : gmap string Z) (m : gmap string Z) =>
              weighted_total w r
              = weighted_total (fun cat => w (first_letter cat)) m)).
  - reflexivity.
  - intros cat n m r Hfresh IH.
    rewrite weighted_total_add, weighted_total_insert_fresh by exact Hfresh.
    lia.
Qed.

Lemma getitem_char_categories (password : unicode) (l : string) :
  getitem (char_categories category password) l
  = how_many (fun c => String.eqb (first_letter (code (category c))) l)
             password.
Proof.
  rewrite <- sum_indicator.
  rewrite <- (weighted_total_detailed
                (fun cat => int (String.eqb (first_letter cat) l))).
  unfold char_categories.
  apply (map_fold_weak_ind
           (fun (r : gmap string Z) (m : gmap string Z) =>
              getitem r l
              = weighted_total
                  (fun cat => int (String.eqb (first_letter cat) l)) m)).
  - reflexivity.
  - intros cat n m r Hfresh IH.
    rewrite getitem_add, weighted_total_insert_fresh, IH by exact Hfresh.
    unfold int. destruct (String.eqb (first_letter cat) l); lia.
Qed.

Lemma count_how_many (password : unicode) (categories : list string) :
  count category password categories
  = how_many (fun c => bool_decide
                         (first_letter (code (category c)) ∈ categories))
             password.
Proof.
  pose (w := fun cat : string => int (bool_decide (cat ∈ categories))).
  change (count category password categories)
    with (weighted_total w (char_categories category password)).
  rewrite weighted_total_char_categories, weighted_total_detailed.
  subst w. cbv beta.
  apply (sum_indicator
           (fun c => bool_decide
                       (first_letter (code (category c)) ∈ categories))).
Qed.

Lemma count_except_how_many (password : unicode) (categories : list string) :
  count_except category password categories
  = how_many (fun c => negb (bool_decide
                               (first_letter (code (category c)) ∈ categories)))
             password.
Proof.
  pose (w := fun cat : string => int (negb (bool_decide (cat ∈ categories)))).
  change (count_except category password categories)
    with (weighted_total w (char_categories category password)).
  rewrite weighted_total_char_categories, weighted_total_detailed.
  subst w. cbv beta.
  apply (sum_indicator
           (fun c => negb (bool_decide
                             (first_letter (code (category c)) ∈ categories)))).
Qed.

End CounterContents.

Section CounterRelations.

Lemma how_many_sum3 (f g h : codepoint -> bool) (password : unicode) :
  (forall c, int (f c) + int (g c) + int (h c) = 1) ->
  how_many f password + how_many g password + how_many h password
  = len password.
Proof.
  intros H. rewrite <- !sum_indicator.
  induction password as [|c p IH]; [reflexivity|].
  cbn [map]. rewrite !sum_cons, len_cons. specialize (H c). lia.
Qed.

Lemma how_many_le2 (f g h : codepoint -> bool) (password : unicode) :
  (forall c, int (f c) + int (g c) <= int (h c)) ->
  how_many f password + how_many g password <= how_many h password.
Proof.
  intros H. rewrite <- !sum_indicator.
  induction password as [|c p IH]; [reflexivity|].
  cbn [map]. rewrite !sum_cons. specialize (H c). lia.
Qed.

End CounterRelations.

(** X6: the detailed counter holds, under each two-letter category code,
    the number of characters of the password in that category, and 0 under
    a code that no character has; [letters_uppercase] and
    [letters_lowercase] are the numbers of characters of the categories Lu
    and Ll. *)
Theorem char_categories_detailed_counts
        (category : codepoint -> category_code) (password : unicode)
        (k : string) :
  getitem (char_categories_detailed category password) k
  = how_many (fun c => String.eqb (code (category c)) k) password
  /\ letters_uppercase category password
     = how_many (fun c => String.eqb (code (category c)) "Lu") password
  /\ letters_lowercase category password
     = how_many (fun c => String.eqb (code (category c)) "Ll") password.
Proof. repeat split; apply getitem_detailed. Qed.

(** X7: the top-level counter holds, under each letter, the number of
    characters whose category code starts with that letter; [letters] and
    [numbers] are the numbers of characters of the categories L* and N*. *)
Theorem char_categories_counts
        (category : codepoint -> category_code) (password : unicode)
        (l : string) :
  getitem (char_categories category password) l
  = how_many (fun c => String.eqb (first_letter (code (category c))) l)
             password
  /\ letters category password
     = how_many (fun c => String.eqb (first_letter (code (category c))) "L")
                password
  /\ numbers category password
     = how_many (fun c => String.eqb (first_letter (code (category c))) "N")
                password.
Proof. repeat split; apply getitem_char_categories. Qed.

(** X8: [count] is the number of characters whose top-level category is
    one of the arguments, and [count_except] the
    number of the others; an argument given twice, or one that is no
    category letter, changes nothing. *)
Theorem count_counts (category : codepoint -> category_code)
        (password : unicode) (categories : list string) :
  count category password categories
  = how_many (fun c => bool_decide
                         (first_letter (code (category c)) ∈ categories))
             password
  /\ count_except category password categories
     = how_many (fun c => negb (bool_decide
                                  (first_letter (code (category c))
                                   ∈ categories)))
                password.
Proof. split; [apply count_how_many|apply count_except_how_many]. Qed.

(** X9: the special characters are the characters that are neither letters
    nor numbers: [special_characters = length - letters - numbers]. *)
Theorem special_characters_rest (category : codepoint -> category_code)
        (password : unicode) :
  special_characters category password
  = length_ password - letters category password - numbers category password.
Proof.
  unfold special_characters, letters, numbers, length_.
  rewrite count_except_how_many, !getitem_char_categories.
  rewrite <- (how_many_sum3
                (fun c => negb (bool_decide
                                  (first_letter (code (category c))
                                   ∈ ["L"%string; "N"%string])))
                (fun c => String.eqb (first_letter (code (category c))) "L")
                (fun c => String.eqb (first_letter (code (category c))) "N")
                password); [lia|].
  intros c. set (t := first_letter (code (category c))).
  destruct (String.eqb_spec t "L") as [->|HL]; [reflexivity|].
  destruct (String.eqb_spec t "N") as [->|HN]; [reflexivity|].
  rewrite bool_decide_eq_false_2; [reflexivity|].
  rewrite !elem_of_cons, elem_of_nil. tauto.
Qed.

(** X10: the counters are ordered as the categories are nested: uppercase
    and lowercase letters together are at most the letters, and letters and
    numbers together at most the length; none is negative. *)
Theorem counters_nested (category : codepoint -> category_code)
        (password : unicode) :
  0 <= letters_uppercase category password
  /\ 0 <= letters_lowercase category password
  /\ 0 <= numbers category password
  /\ letters_uppercase category password + letters_lowercase category password
     <= letters category password
  /\ letters category password + numbers category password
     <= length_ password.
Proof.
  unfold letters_uppercase, letters_lowercase, letters, numbers, length_.
  rewrite !getitem_detailed, !getitem_char_categories.
  repeat split; try apply how_many_bounds.
  - apply how_many_le2. intros c.
    destruct (String.eqb_spec (code (category c)) "Lu") as [E|_];
      [rewrite E; cbn; lia|].
    destruct (String.eqb_spec (code (category c)) "Ll") as [E|_];
      [rewrite E; cbn; lia|].
    unfold int. destruct (String.eqb _ _); lia.
  - pose proof (how_many_sum3
                  (fun c => negb (String.eqb (first_letter (code (category c))) "L"
                                  || String.eqb (first_letter (code (category c))) "N"))
                  (fun c => String.eqb (first_letter (code (category c))) "L")
                  (fun c => String.eqb (first_letter (code (category c))) "N")
                  password) as H3.
    pose proof (how_many_bounds
                  (fun c => negb (String.eqb (first_letter (code (category c))) "L"
                                  || String.eqb (first_letter (code (category c))) "N"))
                  password) as Hb.
    rewrite <- H3; [lia|]. intros c.
    set (t := first_letter (code (category c))).
    destruct (String.eqb_spec t "L") as [->|HL]; [reflexivity|].
    destruct (String.eqb_spec t "N") as [->|HN]; reflexivity.
Qed.

(** X11: every character is counted exactly once: the counts of the
    detailed counter add up to the length of the password, and so do the
    counts of the top-level counter. *)
Theorem counters_total (category : codepoint -> category_code)
        (password : unicode) :
  sum (map snd (map_to_list (char_categories_detailed category password)))
  = length_ password
  /\ sum (map snd (map_to_list (char_categories category password)))
     = length_ password.
Proof.
  split; [apply values_total_detailed|apply values_total_char_categories].
Qed.

(** ** The alphabet and the combinations *)

Section AlphabetSize.

Lemma alphabet_cons_old (c : codepoint) (password : unicode) :
  c ∈ password -> alphabet (c :: password) = alphabet password.
Proof.
  intros Hc. unfold alphabet. rewrite list_to_set_cons.
  apply subseteq_union_1_L. intros x Hx.
  apply elem_of_singleton in Hx as ->. apply elem_of_list_to_set, Hc.
Qed.

Lemma alphabet_cons_new (c : codepoint) (password : unicode) :
  c ∉ password ->
  size (alphabet (c :: password)) = S (size (alphabet password)).
Proof.
  intros Hc. unfold alphabet. rewrite list_to_set_cons, size_union.
  - rewrite size_singleton. reflexivity.
  - apply disjoint_singleton_l. rewrite elem_of_list_to_set. exact Hc.
Qed.

Lemma alphabet_size_le (password : unicode) :
  (size (alphabet password) <= length password)%nat.
Proof.
  induction password as [|c p IH]; [reflexivity|].
  destruct (decide (c ∈ p)) as [Hc|Hc].
  - rewrite alphabet_cons_old by exact Hc. simpl. lia.
  - rewrite alphabet_cons_new by exact Hc. simpl. lia.
Qed.

Lemma alphabet_size_NoDup (password : unicode) :
  size (alphabet password) = length password <-> NoDup password.
Proof.
  split; [|apply size_list_to_set].
  induction password as [|c p IH]; intros H; [constructor|].
  destruct (decide (c ∈ p)) as [Hc|Hc].
  - rewrite alphabet_cons_old in H by exact Hc.
    pose proof (alphabet_size_le p). simpl in H. lia.
  - rewrite alphabet_cons_new in H by exact Hc. simpl in H.
    constructor; [exact Hc|]. apply IH. lia.
Qed.

Lemma alphabet_size_zero (password : unicode) :
  size (alphabet password) = 0%nat <-> password = [].
Proof.
  split; [|intros ->; reflexivity].
  destruct password as [|c p]; [reflexivity|]. intros H.
  apply size_empty_inv in H.
  exfalso. apply (not_elem_of_empty (C:=gset codepoint) c).
  rewrite <- H. apply elem_of_list_to_set. left.
Qed.

End AlphabetSize.

(** X12: the alphabet has at most as many elements as the password has
    characters, exactly as many when and only when no character occurs
    twice, and none only for the empty password. *)
Theorem alphabet_cardinality_bounds (password : unicode) :
  0 <= alphabet_cardinality password <= len password
  /\ (alphabet_cardinality password = len password <-> NoDup password)
  /\ (alphabet_cardinality password = 0 <-> password = []).
Proof.
  unfold alphabet_cardinality, len.
  pose proof (alphabet_size_le password) as Hle.
  pose proof (alphabet_size_NoDup password) as [Hn1 Hn2].
  pose proof (alphabet_size_zero password) as [Hz1 Hz2].
  split; [lia|]. split; split; intros H.
  - apply Hn1. lia.
  - rewrite (Hn2 H). reflexivity.
  - apply Hz1. lia.
  - rewrite (Hz2 H). reflexivity.
Qed.

(** X13: the number of combinations is at least 1, and it is 1 exactly when
    the alphabet has at most one symbol. *)
Theorem combinations_at_least_one (password : unicode) :
  1 <= combinations password
  /\ (combinations password = 1 <-> alphabet_cardinality password <= 1).
Proof.
  unfold combinations, alphabet_cardinality, len.
  pose proof (alphabet_size_le password) as Hle.
  pose proof (alphabet_size_zero password) as Hz.
  destruct (size (alphabet password)) as [|[|n]] eqn:E.
  - rewrite (proj1 Hz eq_refl). simpl. split; [lia|]. split; lia.
  - rewrite Z.pow_1_l by lia. split; [lia|]. split; lia.
  - assert (Hbase : 2 <= Z.of_nat (S (S n))) by lia.
    assert (Hpow : Z.of_nat (S (S n)) ^ 1
                   <= Z.of_nat (S (S n)) ^ Z.of_nat (length password))
      by (apply Z.pow_le_mono_r; lia).
    rewrite Z.pow_1_r in Hpow. split; [lia|]. split; lia.
Qed.

(** ** The repeated-pattern detector: case and completeness *)

Section RepeatedPatternsCase.

Variable tolower : codepoint -> codepoint.

Lemma groupref_ignore_lowered (group group' text text' : unicode) :
  map tolower group = map tolower group' ->
  map tolower text = map tolower text' ->
  groupref_ignore tolower group text = groupref_ignore tolower group' text'.
Proof.
  revert group' text text'.
  induction group as [|a group IH]; intros [|a' group'] text text' Hg Ht;
    try discriminate; [reflexivity|].
  destruct text as [|b text], text' as [|b' text']; try discriminate;
    [reflexivity|].
  simpl in *. injection Hg as Ha Hg. injection Ht as Hb Ht.
  rewrite Ha, Hb, (IH group' text text' Hg Ht). reflexivity.
Qed.

Lemma map_length_eq (x y : unicode) :
  map tolower x = map tolower y -> length x = length y.
Proof.
  intros H. apply (f_equal (@length codepoint)) in H.
  rewrite !length_map in H. exact H.
Qed.

Lemma max_repeat_groupref_lowered (fuel : nat)
      (group group' text text' : unicode) :
  map tolower group = map tolower group' ->
  map tolower text = map tolower text' ->
  max_repeat_groupref tolower fuel group text
  = max_repeat_groupref tolower fuel group' text'.
Proof.
  intros Hg. revert text text'.
  induction fuel as [|fuel IH]; intros text text' Ht; [reflexivity|].
  simpl. rewrite (groupref_ignore_lowered group group' text text' Hg Ht).
  rewrite (map_length_eq group group' Hg).
  rewrite (IH (drop (length group') text) (drop (length group') text'));
    [reflexivity|].
  rewrite <- !skipn_map, Ht. reflexivity.
Qed.

Lemma min_repeat_any_lowered (candidates k : nat) (text text' : unicode) :
  map tolower text = map tolower text' ->
  min_repeat_any tolower candidates k text
  = min_repeat_any tolower candidates k text'.
Proof.
  intros Ht. revert k.
  induction candidates as [|candidates IH]; intros k; [reflexivity|].
  simpl.
  assert (Hlen : length (drop k text) = length (drop k text'))
    by (rewrite !length_drop, (map_length_eq text text' Ht); reflexivity).
  rewrite Hlen.
  rewrite (max_repeat_groupref_lowered _ (take k text) (take k text')
                                       (drop k text) (drop k text')).
  - rewrite IH. reflexivity.
  - rewrite <- !firstn_map, Ht. reflexivity.
  - rewrite <- !skipn_map, Ht. reflexivity.
Qed.

Lemma findall_lowered (fuel : nat) (text text' : unicode) (total : Z) :
  map tolower text = map tolower text' ->
  fold_left (fun length '(substring, pattern) => length + len substring)
            (findall tolower fuel text) total
  = fold_left (fun length '(substring, pattern) => length + len substring)
              (findall tolower fuel text') total.
Proof.
  revert text text' total.
  induction fuel as [|fuel IH]; intros text text' total Ht; [reflexivity|].
  destruct text as [|c text], text' as [|c' text']; try discriminate;
    [reflexivity|].
  cbn [findall]. unfold sre_match.
  rewrite (map_length_eq _ _ Ht).
  rewrite (min_repeat_any_lowered _ _ (c :: text) (c' :: text') Ht).
  destruct (min_repeat_any tolower (length (c' :: text')) 1 (c' :: text'))
    as [[n k]|].
  - cbn [fold_left].
    assert (Hlen : len (take n (c :: text)) = len (take n (c' :: text'))).
    { unfold len. rewrite !length_take, (map_length_eq _ _ Ht). reflexivity. }
    rewrite Hlen. apply IH. rewrite <- !skipn_map, Ht. reflexivity.
  - apply IH. simpl in Ht. now injection Ht.
Qed.

(** The lazy search finds a unit whenever some unit is followed by a copy of
    itself. *)
Lemma groupref_ignore_complete (group text : unicode) :
  (length group <= length text)%nat ->
  map tolower (take (length group) text) = map tolower group ->
  groupref_ignore tolower group text = true.
Proof.
  revert text. induction group as [|a group IH]; intros text Hl Hm;
    [reflexivity|].
  destruct text as [|b text]; [simpl in Hl; lia|].
  simpl in *. injection Hm as Hb Hm.
  rewrite Hb, N.eqb_refl, IH; [reflexivity|lia|exact Hm].
Qed.

Lemma min_repeat_any_complete (candidates k0 k : nat) (text : unicode) :
  (1 <= k0 <= k)%nat -> (k < k0 + candidates)%nat -> (k <= length text)%nat ->
  groupref_ignore tolower (take k text) (drop k text) = true ->
  min_repeat_any tolower candidates k0 text <> None.
Proof.
  revert k0. induction candidates as [|candidates IH]; intros k0 Hk Hc Hl Hg;
    [lia|].
  cbn [min_repeat_any].
  destruct (Nat.ltb_spec 0
              (max_repeat_groupref tolower (length (drop k0 text))
                                   (take k0 text) (drop k0 text)))
    as [_|Hzero]; [discriminate|].
  destruct (Nat.eq_dec k0 k) as [->|Hne]; [|apply IH; [lia|lia|lia|exact Hg]].
  exfalso.
  destruct (groupref_ignore_true tolower _ _ Hg) as [Hlen _].
  rewrite length_take_le in Hlen by lia.
  destruct (length (drop k text)) as [|m] eqn:E; [lia|].
  cbn [max_repeat_groupref] in Hzero. rewrite Hg in Hzero.
  rewrite length_take_le in Hzero by lia. lia.
Qed.

Lemma sre_match_complete (block copy after : unicode) :
  block <> [] -> map tolower copy = map tolower block ->
  sre_match tolower (block ++ copy ++ after) <> None.
Proof.
  intros Hne Hm. pose proof (map_length_eq _ _ Hm) as Hlen.
  assert (Hpos : (1 <= length block)%nat)
    by (destruct block; [congruence|simpl; lia]).
  apply (min_repeat_any_complete _ 1 (length block)).
  - lia.
  - rewrite length_app. lia.
  - rewrite length_app. lia.
  - rewrite take_app_length, drop_app_length.
    apply groupref_ignore_complete.
    + rewrite length_app. lia.
    + rewrite <- Hlen, take_app_length. exact Hm.
Qed.

Lemma findall_finds (fuel : nat) (before text : unicode) (total : Z) :
  (length (before ++ text) <= fuel)%nat ->
  sre_match tolower text <> None ->
  total + 2
  <= fold_left (fun length '(substring, pattern) => length + len substring)
               (findall tolower fuel (before ++ text)) total.
Proof.
  revert before total.
  assert (Hstep : forall fuel (s : unicode) total,
             sre_match tolower s <> None -> s <> [] ->
             total + 2
             <= fold_left
                  (fun length '(substring, pattern) => length + len substring)
                  (findall tolower (S fuel) s) total).
  { clear. intros fuel s total Hm Hs. destruct s as [|c s]; [congruence|].
    cbn [findall].
    destruct (sre_match tolower (c :: s)) as [[n k]|] eqn:E; [|congruence].
    destruct (sre_match_shape _ _ _ _ E) as (Hk & q & Hq & -> & Hn & _).
    cbn [fold_left].
    pose proof (findall_spans tolower fuel (drop (q * k) (c :: s))
                  (total + len (take (q * k) (c :: s)))) as [Hlo _].
    unfold len in *. rewrite length_take_le in * by exact Hn. nia. }
  induction fuel as [|fuel IH]; intros before total Hfuel Hm.
  - destruct before, text; simpl in Hfuel; try lia.
    exfalso. apply Hm. reflexivity.
  - destruct before as [|b before].
    + simpl app. apply Hstep; [exact Hm|]. intros ->. apply Hm. reflexivity.
    + destruct (sre_match tolower ((b :: before) ++ text)) eqn:E.
      * apply Hstep; [congruence|discriminate].
      * simpl app in *. cbn [findall]. rewrite E.
        apply IH; [simpl in Hfuel; lia|exact Hm].
Qed.

Lemma findall_has_repeat (fuel : nat) (text : unicode) :
  findall tolower fuel text <> [] -> has_repeat tolower text.
Proof.
  revert text. induction fuel as [|fuel IH]; intros text H;
    [simpl in H; congruence|].
  destruct text as [|c text]; [simpl in H; congruence|].
  cbn [findall] in H.
  destruct (sre_match tolower (c :: text)) as [[n k]|] eqn:E.
  - clear H IH. unfold sre_match in E.
    set (s := c :: text) in *.
    assert (Hgen : forall candidates k0,
               (1 <= k0)%nat -> (k0 + candidates <= S (length s))%nat ->
               min_repeat_any tolower candidates k0 s = Some (n, k) ->
               (1 <= k <= length s)%nat
               /\ groupref_ignore tolower (take k s) (drop k s) = true).
    { clear E. induction candidates as [|candidates IHc]; intros k0 Hk0 Hc Hm;
        [discriminate|].
      cbn [min_repeat_any] in Hm.
      destruct (Nat.ltb_spec 0
                  (max_repeat_groupref tolower (length (drop k0 s))
                                       (take k0 s) (drop k0 s)))
        as [Hpos|_].
      - injection Hm as _ <-. split; [lia|].
        destruct (length (drop k0 s)) as [|m]; [simpl in Hpos; lia|].
        cbn [max_repeat_groupref] in Hpos.
        destruct (groupref_ignore tolower (take k0 s) (drop k0 s));
          [reflexivity|lia].
      - apply (IHc (S k0)); [lia|lia|exact Hm]. }
    destruct (Hgen (length s) 1%nat ltac:(lia) ltac:(lia) E) as [Hk Hg].
    destruct (groupref_ignore_true tolower _ _ Hg) as [Hlen Hmap].
    rewrite length_take_le in Hlen, Hmap by lia.
    exists [], (take k s), (take k (drop k s)), (drop k (drop k s)).
    repeat split.
    + simpl. rewrite (take_drop k (drop k s)), take_drop. reflexivity.
    + intros Hnil. apply (f_equal (@length codepoint)) in Hnil.
      rewrite length_take_le in Hnil by lia. simpl in Hnil. lia.
    + exact Hmap.
  - destruct (IH text H) as (before & block & copy & after & -> & Hne & Hm).
    exists (c :: before), block, copy, after. repeat split; assumption.
Qed.

Lemma findall_not_one (fuel : nat) (text : unicode) (total : Z) :
  total = 0 \/ 2 <= total ->
  let r := fold_left
             (fun length '(substring, pattern) => length + len substring)
             (findall tolower fuel text) total in
  r = 0 \/ 2 <= r.
Proof.
  revert text total. induction fuel as [|fuel IH]; intros text total Ht;
    [exact Ht|].
  destruct text as [|c text]; [exact Ht|].
  cbn [findall].
  destruct (sre_match tolower (c :: text)) as [[n k]|] eqn:E.
  - destruct (sre_match_shape _ _ _ _ E) as (Hk & q & Hq & -> & Hn & _).
    cbn [fold_left]. apply IH.
    unfold len. rewrite length_take_le by exact Hn. nia.
  - apply IH, Ht.
Qed.

End RepeatedPatternsCase.

(** X14: the repeated-pattern detector ignores case: two passwords that are
    equal once their characters are lowered get the same result. *)
Theorem repeated_patterns_length_ignores_case
        (tolower : codepoint -> codepoint) (p q : unicode) :
  map tolower p = map tolower q ->
  repeated_patterns_length tolower p = repeated_patterns_length tolower q.
Proof.
  intros H. unfold repeated_patterns_length.
  rewrite (map_length_eq tolower p q H). apply findall_lowered, H.
Qed.

Lemma repeated_patterns_length_ignores_case_witness :
  repeated_patterns_length ascii_tolower (u "AbaB-xY")
  = repeated_patterns_length ascii_tolower (u "abab-XY").
Proof.
  apply (repeated_patterns_length_ignores_case ascii_tolower).
  reflexivity.
Defined.

(** X15: the detector finds something exactly when the password holds a
    repetition: the result is positive if and only if, somewhere in the
    password, a non-empty block is followed at once by a copy of itself, up
    to case. *)
Theorem repeated_patterns_length_positive
        (tolower : codepoint -> codepoint) (password : unicode) :
  0 < repeated_patterns_length tolower password
  <-> has_repeat tolower password.
Proof.
  unfold repeated_patterns_length. split.
  - intros H. apply (findall_has_repeat tolower (length password)).
    intros E. rewrite E in H. simpl in H. lia.
  - intros (before & block & copy & after & -> & Hne & Hm).
    pose proof (findall_finds tolower
                  (length (before ++ block ++ copy ++ after)) before
                  (block ++ copy ++ after) 0 (le_n _)
                  (sre_match_complete tolower block copy after Hne Hm)).
    lia.
Qed.

(** X16: the repeated-pattern detector never returns 1: every match spans a
    unit and at least one copy, so the result is 0 or at least 2. *)
Theorem repeated_patterns_length_never_one
        (tolower : codepoint -> codepoint) (password : unicode) :
  repeated_patterns_length tolower password = 0
  \/ 2 <= repeated_patterns_length tolower password.
Proof.
  apply (findall_not_one tolower (length password) password 0). now left.
Qed.

(** ** Entropy of a non-empty password *)

Section FloatPositive.

Lemma digits2_pos_ge_pow (p : positive) :
  2 ^ (Zpos (digits2_pos p) - 1) <= Zpos p.
Proof.
  induction p as [p IH|p IH|]; simpl digits2_pos;
    rewrite ?Pos2Z.inj_succ; [| |reflexivity].
  - replace (Z.succ (Zpos (digits2_pos p)) - 1)
      with (Z.succ (Zpos (digits2_pos p) - 1)) by lia.
    rewrite Z.pow_succ_r by lia. lia.
  - replace (Z.succ (Zpos (digits2_pos p)) - 1)
      with (Z.succ (Zpos (digits2_pos p) - 1)) by lia.
    rewrite Z.pow_succ_r by lia. lia.
Qed.

Lemma shr_1_half (mrs : shr_record) :
  0 <= shr_m mrs -> shr_m (shr_1 mrs) = shr_m mrs / 2.
Proof.
  destruct mrs as [m r s]. simpl.
  destruct m as [|[p|p|]|[p|p|]]; simpl shr_m; intros H; try lia;
    try reflexivity.
  - apply (Z.div_unique _ _ _ 1); lia.
  - apply (Z.div_unique _ _ _ 0); lia.
Qed.

Lemma iter_shr_1_div (n : positive) (mrs : shr_record) :
  0 <= shr_m mrs ->
  shr_m (SpecFloat.iter_pos shr_1 n mrs) = shr_m mrs / 2 ^ Zpos n.
Proof.
  revert mrs. induction n as [n IH|n IH|]; intros mrs Hm; simpl SpecFloat.iter_pos.
  - pose proof (shr_1_m mrs Hm) as H1.
    pose proof (iter_shr_1_m n (shr_1 mrs) ltac:(lia)) as H2.
    rewrite IH, IH, shr_1_half by lia.
    assert (Hp : 0 < 2 ^ Zpos n) by (apply Z.pow_pos_nonneg; lia).
    rewrite !Z.div_div by lia. f_equal.
    replace (Zpos n~1) with (1 + Zpos n + Zpos n) by lia.
    rewrite !Z.pow_add_r by lia. change (2 ^ 1) with 2. ring.
  - pose proof (iter_shr_1_m n mrs Hm) as H2.
    rewrite IH, IH by lia.
    assert (Hp : 0 < 2 ^ Zpos n) by (apply Z.pow_pos_nonneg; lia).
    rewrite !Z.div_div by lia. f_equal.
    replace (Zpos n~0) with (Zpos n + Zpos n) by lia.
    rewrite !Z.pow_add_r by lia. ring.
  - rewrite shr_1_half by exact Hm. reflexivity.
Qed.

(** A normalising shift leaves a positive mantissa positive, as long as
    the exponent is not below the smallest one. *)
Lemma shr_fexp_positive (m e : Z) (l : location) :
  0 < m -> -1074 <= e ->
  0 < shr_m (fst (shr_fexp prec emax m e l)).
Proof.
  intros Hm He. unfold shr_fexp, shr.
  assert (Hrec : shr_m (shr_record_of_loc m l) = m)
    by (destruct l as [|[]]; reflexivity).
  destruct (fexp prec emax (Zdigits2 m + e) - e) as [|n|n] eqn:Hn;
    cbn [fst]; try (rewrite Hrec; exact Hm).
  rewrite iter_shr_1_div, Hrec by (rewrite Hrec; lia).
  destruct m as [|p|p]; try lia. simpl Zdigits2 in Hn.
  unfold fexp, emin, prec, emax in Hn.
  pose proof (digits2_pos_ge_pow p) as Hd.
  assert (Hpow : 2 ^ Zpos n <= 2 ^ (Zpos (digits2_pos p) - 1))
    by (apply Z.pow_le_mono_r; lia).
  apply Z.div_str_pos. split; [apply Z.pow_pos_nonneg; lia|lia].
Qed.

Lemma round_nearest_even_ge (m : Z) (l : location) :
  m <= round_nearest_even m l.
Proof.
  unfold round_nearest_even.
  destruct l as [|[]]; try destruct (Z.even m); lia.
Qed.

Lemma binary_round_aux_nonzero (mx ex : Z) (lx : location) :
  0 < mx -> -1074 <= ex ->
  match binary_round_aux prec emax false mx ex lx with
  | S754_zero _ => False
  | _ => True
  end.
Proof.
  intros Hmx Hex. unfold binary_round_aux.
  pose proof (shr_fexp_positive mx ex lx Hmx Hex) as H1.
  pose proof (shr_fexp_bounds mx ex lx ltac:(lia)) as B1.
  destruct (shr_fexp prec emax mx ex lx) as [mrs' e']. cbn [fst] in H1.
  destruct B1 as [_ He'].
  pose proof (round_nearest_even_ge (shr_m mrs') (loc_of_shr_record mrs'))
    as Hr.
  set (r := round_nearest_even (shr_m mrs') (loc_of_shr_record mrs')) in *.
  pose proof (shr_fexp_positive r e' loc_Exact ltac:(lia) ltac:(lia)) as H2.
  destruct (shr_fexp prec emax r e' loc_Exact) as [mrs'' e''].
  cbn [fst] in H2.
  destruct (shr_m mrs'') as [|m|m]; [lia| |exact I].
  destruct (Z.leb e'' (emax - prec)); exact I.
Qed.

(** A positive Python [int] converts to a positive finite float. *)
Lemma float_of_int_positive (n : Z) :
  1 <= n < 2 ^ 63 ->
  exists m e, float_of_int n = S754_finite false m e.
Proof.
  intros Hn. pose proof (float_of_int_finite n ltac:(lia)) as Hfin.
  assert (Hnz : match float_of_int n with
                | S754_zero _ => False
                | _ => True
                end).
  { unfold float_of_int, binary_normalize.
    destruct n as [|p|p]; try lia.
    unfold binary_round, shl_align.
    destruct (fexp prec emax (Zpos (digits2_pos p) + 0) - 0) as [|d|d] eqn:Hf;
      try (apply binary_round_aux_nonzero; lia).
    unfold fexp, emin, prec, emax in Hf.
    apply binary_round_aux_nonzero; [lia|].
    unfold fexp, emin, prec, emax. lia. }
  destruct (float_of_int n) as [[|]|[|]| |[|] m e]; try contradiction.
  eauto.
Qed.

End FloatPositive.

(** X17: the empty password is the only one on which [entropy_bits] fails:
    for a non-empty password of at most [sys.maxint] characters the property
    returns a float, provided the C library's [log] gives a finite value at
    the alphabet size and a finite value other than zero at 2.0, as the
    logarithm of a positive finite double is. *)
Theorem entropy_bits_returns (libm_log : float -> float)
        (password : unicode) :
  Py_IS_FINITE (libm_log (float_of_int (alphabet_cardinality password)))
  = true ->
  Py_IS_FINITE (libm_log (float_of_int 2)) = true ->
  (forall s, libm_log (float_of_int 2) <> S754_zero s) ->
  password <> [] ->
  len password <= sys_maxint ->
  exists x, entropy_bits libm_log password = Done x.
Proof.
  intros Hfin1 Hfin2 Hlog Hne Hlen. unfold sys_maxint in Hlen.
  assert (Hcard : 1 <= alphabet_cardinality password <= len password).
  { unfold alphabet_cardinality, len.
    pose proof (alphabet_size_le password).
    pose proof (alphabet_size_zero password) as [Hz _].
    destruct (size (alphabet password)); [destruct (Hne (Hz eq_refl))|lia]. }
  destruct (float_of_int_positive (alphabet_cardinality password))
    as (m1 & e1 & E1); [lia|].
  destruct (float_of_int_positive 2) as (m2 & e2 & E2); [lia|].
  unfold entropy_bits, log, math_1. rewrite E1 in *. rewrite E2 in *.
  cbn [m_log].
  destruct (libm_log (S754_finite false m1 e1)) as [s1|s1| |s1 n1 x1];
    try discriminate Hfin1;
    (destruct (libm_log (S754_finite false m2 e2)) as [s2|s2| |s2 n2 x2] eqn:E;
     try discriminate Hfin2; cbn; eauto; destruct (Hlog s2 eq_refl)).
Qed.

Lemma entropy_bits_returns_witness :
  exists x, entropy_bits libm_log_excerpt (u "ab") = Done x.
Proof.
  apply (entropy_bits_returns libm_log_excerpt (u "ab")).
  - vm_compute. reflexivity.
  - vm_compute. reflexivity.
  - intros s. vm_compute. discriminate.
  - discriminate.
  - vm_compute. discriminate.
Defined.

(** ** The memoising decorator: results *)


(** ** The repeated-pattern detector: the matches and the scan *)

Section RepeatedPatternsScan.

Variable tolower : codepoint -> codepoint.

Lemma map_concat_replicate (q : nat) (block : unicode) :
  map tolower (concat (replicate q block))
  = concat (replicate q (map tolower block)).
Proof.
  induction q as [|q IH]; [reflexivity|].
  cbn [replicate concat]. rewrite map_app, IH. reflexivity.
Qed.

Lemma nth_copy (block rest : unicode) (q i : nat) :
  (i < q)%nat ->
  take (length block)
       (drop (i * length block) (concat (replicate q block) ++ rest))
  = block.
Proof.
  revert q. induction i as [|i IH]; intros [|q] Hi; try lia;
    cbn [replicate concat]; rewrite <- app_assoc.
  - simpl. apply take_app_length.
  - cbn [Nat.mul]. rewrite drop_app_add. apply IH. lia.
Qed.

(** Inside a repeat, every copy of the unit is a copy. *)
Lemma is_repeat_copy (text : unicode) (n k i : nat) :
  is_repeat tolower text n k -> (i * k + k <= n)%nat ->
  groupref_ignore tolower (take k text) (drop (i * k) text) = true.
Proof.
  intros (Hk & q & Hq & -> & Hn & Hmap & _) Hi.
  assert (Hiq : (i < q)%nat) by nia.
  assert (Hlen : length (take k text) = k) by (apply length_take_le; nia).
  apply groupref_ignore_complete.
  - rewrite Hlen, length_drop. nia.
  - assert (Htext : map tolower text
                    = concat (replicate q (map tolower (take k text)))
                      ++ map tolower (drop (q * k) text)).
    { rewrite <- (map_concat_replicate q (take k text)).
      transitivity (map tolower (take (q * k) text ++ drop (q * k) text));
        [rewrite take_drop; reflexivity|].
      rewrite map_app. f_equal. exact Hmap. }
    rewrite Hlen, <- firstn_map, <- skipn_map, Htext.
    pose proof (nth_copy (map tolower (take k text))
                         (map tolower (drop (q * k) text)) q i Hiq) as Hc.
    rewrite length_map, Hlen in Hc. exact Hc.
Qed.

Lemma is_repeat_unique (text : unicode) (n n' k : nat) :
  is_repeat tolower text n k -> is_repeat tolower text n' k -> n = n'.
Proof.
  intros H H'.
  pose proof H as (Hk & q & Hq & Hnq & Hn & _ & Hstop).
  pose proof H' as (_ & q' & Hq' & Hnq' & Hn' & _ & Hstop').
  destruct (Nat.lt_trichotomy q q') as [Hlt|[->|Hgt]]; [|congruence|].
  - pose proof (is_repeat_copy text n' k q H' ltac:(nia)) as Hc.
    rewrite <- Hnq in Hc. congruence.
  - pose proof (is_repeat_copy text n k q' H ltac:(nia)) as Hc.
    rewrite <- Hnq' in Hc. congruence.
Qed.

Lemma copy_follows_groupref (text : unicode) (k : nat) :
  (k <= length text)%nat ->
  copy_follows tolower text k
  <-> groupref_ignore tolower (take k text) (drop k text) = true.
Proof.
  intros Hk. pose proof (length_take_le text k Hk) as Hlen.
  unfold copy_follows. split.
  - intros [H2 Hm]. apply groupref_ignore_complete.
    + rewrite Hlen, length_drop. lia.
    + rewrite Hlen. exact Hm.
  - intros Hg. destruct (groupref_ignore_true tolower _ _ Hg) as [Hl Hm].
    rewrite Hlen in Hl, Hm. rewrite length_drop in Hl. split; [lia|exact Hm].
Qed.

(** The lazy search passes over no unit that a copy follows. *)
Lemma min_repeat_any_least (candidates k0 : nat) (text : unicode) (n k : nat) :
  (1 <= k0)%nat -> (k0 + candidates <= S (length text))%nat ->
  min_repeat_any tolower candidates k0 text = Some (n, k) ->
  forall k', (k0 <= k' < k)%nat ->
    groupref_ignore tolower (take k' text) (drop k' text) = false.
Proof.
  revert k0. induction candidates as [|candidates IH]; intros k0 Hk0 Hc H;
    [discriminate|].
  cbn [min_repeat_any] in H.
  assert (Hlg : length (take k0 text) = k0) by (apply length_take_le; lia).
  assert (Hne : take k0 text <> [])
    by (intros E; rewrite E in Hlg; simpl in Hlg; lia).
  destruct (max_repeat_groupref_shape tolower (length (drop k0 text))
              (take k0 text) (drop k0 text) Hne (le_n _))
    as (q & Hr & _ & _ & Hstop).
  rewrite Hr, Hlg in *.
  destruct (Nat.ltb_spec 0 (q * k0)) as [Hpos|Hzero].
  - injection H as _ <-. intros k' Hk'. lia.
  - intros k' Hk'. destruct (Nat.eq_dec k' k0) as [->|Hneq].
    + assert (q = 0%nat) as -> by nia. exact Hstop.
    + apply (IH (S k0)); [lia|lia|exact H|lia].
Qed.

Lemma sre_match_leftmost (text : unicode) (n k : nat) :
  sre_match tolower text = Some (n, k) <-> leftmost_match tolower text n k.
Proof.
  split.
  - intros H. pose proof (sre_match_shape tolower text n k H) as Hrep.
    split; [exact Hrep|]. intros k' Hk' Hcopy.
    destruct Hrep as (_ & q & Hq & -> & Hn & _).
    apply copy_follows_groupref in Hcopy; [|nia].
    rewrite (min_repeat_any_least (length text) 1 text (q * k) k
               ltac:(lia) ltac:(lia) H k' ltac:(lia)) in Hcopy.
    discriminate.
  - intros [Hrep Hmin].
    pose proof Hrep as (Hk & q & Hq & Hnq & Hn & _).
    pose proof (is_repeat_copy text n k 1 Hrep ltac:(nia)) as Hcopy.
    rewrite Nat.mul_1_l in Hcopy.
    destruct (sre_match tolower text) as [[n' k']|] eqn:E.
    + pose proof (sre_match_shape tolower text n' k' E) as Hrep'.
      pose proof Hrep' as (Hk' & q' & Hq' & Hnq' & Hn' & _).
      assert (k' = k) as ->.
      { destruct (Nat.lt_trichotomy k' k) as [Hlt|[->|Hgt]]; [|reflexivity|].
        - exfalso. apply (Hmin k'); [lia|].
          apply copy_follows_groupref; [nia|].
          pose proof (is_repeat_copy text n' k' 1 Hrep' ltac:(nia)) as Hc.
          rewrite Nat.mul_1_l in Hc. exact Hc.
        - rewrite (min_repeat_any_least (length text) 1 text n' k'
                     ltac:(lia) ltac:(lia) E k ltac:(lia)) in Hcopy.
          discriminate. }
      rewrite (is_repeat_unique text n n' k Hrep Hrep'). reflexivity.
    + exfalso. revert E.
      apply (min_repeat_any_complete tolower (length text) 1 k);
        [lia|nia|nia|exact Hcopy].
Qed.

Lemma sre_match_none (text : unicode) :
  sre_match tolower text = None
  <-> forall k, (1 <= k)%nat -> ~ copy_follows tolower text k.
Proof.
  split.
  - intros H k Hk Hcopy. pose proof Hcopy as [H2 _].
    apply copy_follows_groupref in Hcopy; [|lia].
    revert H. apply (min_repeat_any_complete tolower (length text) 1 k);
      [lia|lia|lia|exact Hcopy].
  - intros Hnone. destruct (sre_match tolower text) as [[n k]|] eqn:E;
      [|reflexivity].
    exfalso. pose proof (sre_match_shape tolower text n k E) as Hrep.
    pose proof Hrep as (Hk & q & Hq & Hnq & Hn & _).
    apply (Hnone k Hk). apply copy_follows_groupref; [nia|].
    pose proof (is_repeat_copy text n k 1 Hrep ltac:(nia)) as Hc.
    rewrite Nat.mul_1_l in Hc. exact Hc.
Qed.

Lemma findall_fuel (fuel1 fuel2 : nat) (text : unicode) :
  (length text <= fuel1)%nat -> (length text <= fuel2)%nat ->
  findall tolower fuel1 text = findall tolower fuel2 text.
Proof.
  revert fuel2 text.
  induction fuel1 as [|fuel1 IH]; intros fuel2 text H1 H2.
  - destruct text; [|simpl in H1; lia]. destruct fuel2; reflexivity.
  - destruct text as [|c text]; [destruct fuel2; reflexivity|].
    destruct fuel2 as [|fuel2]; [simpl in H2; lia|].
    cbn [findall].
    destruct (sre_match tolower (c :: text)) as [[n k]|] eqn:E.
    + destruct (sre_match_shape tolower _ _ _ E) as (Hk & q & Hq & -> & Hn & _).
      f_equal. apply IH; rewrite length_drop; simpl in *; nia.
    + apply IH; simpl in *; lia.
Qed.

Lemma fold_spans_acc (l : list (unicode * unicode)) (total : Z) :
  fold_left (fun length '(substring, pattern) => length + len substring)
            l total
  = total
    + fold_left (fun length '(substring, pattern) => length + len substring)
                l 0.
Proof.
  revert total. induction l as [|[substring pattern] l IH]; intros total;
    [simpl; lia|].
  cbn [fold_left]. rewrite (IH (total + len substring)),
                           (IH (0 + len substring)). lia.
Qed.

(** The scan from left to right: a match at the cursor is counted and the
    scan resumes after it; without a match the cursor moves by one. *)
Lemma repeated_patterns_length_unfold (c : codepoint) (text : unicode) :
  repeated_patterns_length tolower (c :: text)
  = match sre_match tolower (c :: text) with
    | Some (n, _) =>
        Z.of_nat n + repeated_patterns_length tolower (drop n (c :: text))
    | None => repeated_patterns_length tolower text
    end.
Proof.
  unfold repeated_patterns_length. cbn [length findall].
  destruct (sre_match tolower (c :: text)) as [[n k]|] eqn:E; [|reflexivity].
  destruct (sre_match_shape tolower _ _ _ E) as (Hk & q & Hq & Hnq & Hn & _).
  cbn [fold_left]. rewrite fold_spans_acc.
  unfold len at 1. rewrite length_take_le by exact Hn.
  rewrite (findall_fuel (length text) (length (drop n (c :: text))));
    [lia| |lia].
  rewrite length_drop. simpl in *. nia.
Qed.

End RepeatedPatternsScan.

(** C5: with any lowering that maps ASCII as the Unicode database does, the
    detector returns 4 for "aaaa" (the unit "a" and three repeats), 6 for
    "abcabc" (the unit "abc" and one repeat) and 0 for "abcd".  In general
    the result is the sum of the spans of the matches met in a scan from
    left to right: at the cursor, the match is the shortest non-empty unit
    that a copy of itself follows, taken with all the copies that follow
    (and there is no match exactly when no unit is followed by a copy); a
    match is counted and the scan resumes after it, so matches do not
    overlap; without a match the cursor moves on by one character. *)
Theorem repeated_patterns_length_examples (tolower : codepoint -> codepoint) :
  (forall c, (c < 128)%N -> tolower c = ascii_tolower c) ->
  repeated_patterns_length tolower (u "aaaa") = 4
  /\ repeated_patterns_length tolower (u "abcabc") = 6
  /\ repeated_patterns_length tolower (u "abcd") = 0
  /\ findall tolower 4 (u "aaaa") = [(u "aaaa", u "a")]
  /\ findall tolower 6 (u "abcabc") = [(u "abcabc", u "abc")]
  /\ findall tolower 4 (u "abcd") = []
  /\ (forall text n k,
        sre_match tolower text = Some (n, k) -> is_repeat tolower text n k)
  /\ (forall password,
        0 <= repeated_patterns_length tolower password <= len password)
  /\ (forall text n k,
        sre_match tolower text = Some (n, k)
        <-> leftmost_match tolower text n k)
  /\ (forall text,
        sre_match tolower text = None
        <-> forall k, (1 <= k)%nat -> ~ copy_follows tolower text k)
  /\ repeated_patterns_length tolower [] = 0
  /\ (forall c text,
        repeated_patterns_length tolower (c :: text)
        = match sre_match tolower (c :: text) with
          | Some (n, _) =>
              Z.of_nat n
              + repeated_patterns_length tolower (drop n (c :: text))
          | None => repeated_patterns_length tolower text
          end).
Proof.
  intros Hascii.
  assert (Hagree : forall s, Forall (fun c => (c < 128)%N) s ->
                             Forall (fun c => tolower c = ascii_tolower c) s).
  { intros s Hs. eapply Forall_impl; [exact Hs|]. exact Hascii. }
  assert (H4 : Forall (fun c => (c < 128)%N) (u "aaaa"))
    by (repeat constructor).
  assert (H6 : Forall (fun c => (c < 128)%N) (u "abcabc"))
    by (repeat constructor).
  assert (H0 : Forall (fun c => (c < 128)%N) (u "abcd"))
    by (repeat constructor).
  rewrite !(repeated_patterns_length_ext tolower ascii_tolower)
    by (unfold agree; auto).
  rewrite !(findall_ext tolower ascii_tolower) by (unfold agree; auto).
  do 6 (split; [reflexivity|]).
  split; [apply sre_match_shape|].
  split; [intros password; apply (findall_spans tolower _ password 0)|].
  split; [apply sre_match_leftmost|].
  split; [apply sre_match_none|].
  split; [reflexivity|apply repeated_patterns_length_unfold].
Qed.

Lemma repeated_patterns_length_examples_witness :
  repeated_patterns_length ascii_tolower (u "aaaa") = 4
  /\ repeated_patterns_length ascii_tolower (u "xaaaa") = 4
  /\ leftmost_match ascii_tolower (u "aabaab") 2 1
  /\ ~ leftmost_match ascii_tolower (u "aabaab") 6 3.
Proof.
  pose proof (repeated_patterns_length_examples ascii_tolower
                (fun c _ => eq_refl))
    as (H4 & _ & _ & _ & _ & _ & _ & _ & Hleft & _ & _ & Hscan).
  split; [exact H4|]. split.
  - exact (eq_trans (Hscan 120%N (u "aaaa")) H4).
  - split.
    + apply Hleft. reflexivity.
    + intros H. apply Hleft in H. discriminate H.
Defined.
